(** * humanhash: human-readable representations of digests

    A shallow embedding of [src/index.js] (class [HumanHasher]) and the
    properties of its digest compression and word lookup.

    Conventions of the embedding.
    - A JavaScript array is a [list]; its [length] is a [nat].  Arithmetic on
      lengths and counts is exact: an engine's array holds fewer than [2^31]
      elements, so [length/target>>0] is the truncated quotient.
    - The numbers that flow through the arrays are the results of [parseInt]
      on groups of at most two characters and of [^] on them: integers and
      [NaN].  They are the type [number]; [^] applies [ToInt32] to both
      operands, written out with its wrap-around.
    - A string is a [string]; each character stands for one code unit below
      256, which covers every hexadecimal digit, the ASCII white space and the
      ASCII line terminators.
    - A [throw] is the [Throw] case of [completion]; the two [Error]s of the
      source carry their messages, a failed property access on [undefined] or
      [null] is [TypeError].
    - The methods are embedded twice: as functions on values, which the
      properties of their results are about, and in [Store] on a store of
      arrays and objects, with the allocations and the updates in place of
      the source, which the property of repeated calls is about; the second
      is shown to compute the first.
    - The [uuid] method calls the functions [v1] and [v4] of the [uuid]
      package, which are not part of the source; the string such a call
      returns is an argument of the embedded method. *)

From Stdlib Require Import ZArith Lia Ascii.
From Equations Require Import Equations.
From stdpp Require Import base option list strings.

Local Open Scope string_scope.
Local Open Scope nat_scope.
Local Open Scope list_scope.

(** ** Completions: normal return or throw *)

Inductive exn : Type :=
| Error (message : string)
| TypeError.

Inductive completion (A : Type) : Type :=
| Return (a : A)
| Throw (e : exn).
Arguments Return {A} a.
Arguments Throw {A} e.

#[global] Instance completion_ret : MRet completion := fun A a => Return a.
#[global] Instance completion_bind : MBind completion := fun A B f m =>
  match m with
  | Return a => f a
  | Throw e => Throw e
  end.

(** The two errors the source raises itself, under the names the
    specification gives them. *)
Definition InvalidConfiguration : exn :=
  Error "Wordlist must have exactly 256 items".
Definition InsufficientInput : exn :=
  Error "Fewer input bytes than requested output".

(** ** Numbers *)

Inductive number : Type :=
| Int (z : Z)
| NaN.

Definition wrap32 (z : Z) : Z :=
  ((z + 2 ^ 31) mod 2 ^ 32 - 2 ^ 31)%Z.

Definition ToInt32 (x : number) : Z :=
  match x with
  | Int z => wrap32 z
  | NaN => 0%Z
  end.

(** [acc ^ curr] *)
Definition xor (acc curr : number) : number :=
  Int (Z.lxor (ToInt32 acc) (ToInt32 curr)).

(** ** Array operations used by the source *)

(** [a.slice(start, end)] for [0 <= start <= end]. *)
Definition slice {A} (a : list A) (start end_ : nat) : list A :=
  take (end_ - start) (drop start a).

(** [a.slice(start)] for [0 <= start]. *)
Definition slice_from {A} (a : list A) (start : nat) : list A :=
  drop start a.

(** [x.reduce((acc, curr) => acc ^ curr)]: no initial value, so the first
    element starts the accumulator and an empty array throws. *)
Definition reduce_xor (x : list number) : completion number :=
  match x with
  | [] => Throw TypeError
  | first :: rest => Return (foldl xor first rest)
  end.

(** ** [_compress] *)

(** [length/target>>0]; the quotient is [Infinity] or [NaN] when [target]
    is 0, and [>>0] sends both to 0. *)
Definition seg_size_of (length target : nat) : nat :=
  match target with
  | 0 => 0
  | _ => length / target
  end.

(** [for(let i = 0; i<seg_size*target; i+= seg_size)
       segments.push(bytes.slice(i, i+seg_size))],
    from the current [i] and [segments]. *)
Equations? split_loop (bytes : list number) (seg_size target : nat)
    (i : nat) (segments : list (list number)) : list (list number)
    by wf (seg_size * target - i) lt :=
  split_loop bytes seg_size target i segments
    with decide (i < seg_size * target) => {
    | left _ =>
        split_loop bytes seg_size target (i + seg_size)
          (segments ++ [slice bytes i (i + seg_size)]);
    | right _ => segments }.
Proof. nia. Qed.

(** [segments[segments.length - 1] =
       segments[segments.length - 1].concat(bytes.slice(target*seg_size))];
    on an empty [segments] the element read is [undefined] and [.concat]
    throws (the index is then -1; no list has an element at the 0 that
    the subtraction on [nat] gives instead). *)
Definition catch_leftover (segments : list (list number))
    (leftover : list number) : completion (list (list number)) :=
  match segments !! (length segments - 1) with
  | None => Throw TypeError
  | Some last_segment =>
      Return (<[length segments - 1 := last_segment ++ leftover]> segments)
  end.

(** The segments as they stand when the checksums are taken. *)
Definition segments_of (bytes : list number) (target : nat)
  : completion (list (list number)) :=
  let seg_size := seg_size_of (length bytes) target in
  let segments := split_loop bytes seg_size target 0 [] in
  catch_leftover segments (slice_from bytes (target * seg_size)).

(** [_compress(bytes, target)], the target being a count: a non-negative
    integer.  [target > length] is written [length < target]. *)
Definition _compress (bytes : list number) (target : nat)
  : completion (list number) :=
  let length := length bytes in
  if decide (length < target) then Throw InsufficientInput
  else
    segments ← segments_of bytes target;
    checksums ← mapM reduce_xor segments;
    mret checksums.

(** ** The word list and the constructor *)

Definition DEFAULT_WORDLIST : list string :=
  ["ack"; "alabama"; "alanine"; "alaska"; "alpha"; "angel"; "apart"; "april";
   "arizona"; "arkansas"; "artist"; "asparagus"; "aspen"; "august"; "autumn";
   "avocado"; "bacon"; "bakerloo"; "batman"; "beer"; "berlin"; "beryllium";
   "black"; "blossom"; "blue"; "bluebird"; "bravo"; "bulldog"; "burger";
   "butter"; "california"; "carbon"; "cardinal"; "carolina"; "carpet"; "cat";
   "ceiling"; "charlie"; "chicken"; "coffee"; "cola"; "cold"; "colorado";
   "comet"; "connecticut"; "crazy"; "cup"; "dakota"; "december"; "delaware";
   "delta"; "diet"; "don"; "double"; "early"; "earth"; "east"; "echo";
   "edward"; "eight"; "eighteen"; "eleven"; "emma"; "enemy"; "equal";
   "failed"; "fanta"; "fifteen"; "fillet"; "finch"; "fish"; "five"; "fix";
   "floor"; "florida"; "football"; "four"; "fourteen"; "foxtrot"; "freddie";
   "friend"; "fruit"; "gee"; "georgia"; "glucose"; "golf"; "green"; "grey";
   "hamper"; "happy"; "harry"; "hawaii"; "helium"; "high"; "hot"; "hotel";
   "hydrogen"; "idaho"; "illinois"; "india"; "indigo"; "ink"; "iowa";
   "island"; "item"; "jersey"; "jig"; "johnny"; "juliet"; "july"; "jupiter";
   "kansas"; "kentucky"; "kilo"; "king"; "kitten"; "lactose"; "lake"; "lamp";
   "lemon"; "leopard"; "lima"; "lion"; "lithium"; "london"; "louisiana";
   "low"; "magazine"; "magnesium"; "maine"; "mango"; "march"; "mars";
   "maryland"; "massachusetts"; "may"; "mexico"; "michigan"; "mike";
   "minnesota"; "mirror"; "mississippi"; "missouri"; "mobile"; "mockingbird";
   "monkey"; "montana"; "moon"; "mountain"; "muppet"; "music"; "nebraska";
   "neptune"; "network"; "nevada"; "nine"; "nineteen"; "nitrogen"; "north";
   "november"; "nuts"; "october"; "ohio"; "oklahoma"; "one"; "orange";
   "oranges"; "oregon"; "oscar"; "oven"; "oxygen"; "papa"; "paris"; "pasta";
   "pennsylvania"; "pip"; "pizza"; "pluto"; "potato"; "princess"; "purple";
   "quebec"; "queen"; "quiet"; "red"; "river"; "robert"; "robin"; "romeo";
   "rugby"; "sad"; "salami"; "saturn"; "september"; "seven"; "seventeen";
   "shade"; "sierra"; "single"; "sink"; "six"; "sixteen"; "skylark"; "snake";
   "social"; "sodium"; "solar"; "south"; "spaghetti"; "speaker"; "spring";
   "stairway"; "steak"; "stream"; "summer"; "sweet"; "table"; "tango"; "ten";
   "tennessee"; "tennis"; "texas"; "thirteen"; "three"; "timing"; "triple";
   "twelve"; "twenty"; "two"; "uncle"; "undress"; "uniform"; "uranus"; "utah";
   "vegan"; "venus"; "vermont"; "victor"; "video"; "violet"; "virginia";
   "washington"; "west"; "whiskey"; "white"; "william"; "winner"; "winter";
   "wisconsin"; "wolfram"; "wyoming"; "xray"; "yankee"; "yellow"; "zebra";
   "zulu"].

Record HumanHasher : Type := { wordlist : list string }.

(** [constructor(wordlist = DEFAULT_WORDLIST)]; [None] is the omitted
    argument. *)
Definition constructor (wordlist : option (list string))
  : completion HumanHasher :=
  let wordlist := default DEFAULT_WORDLIST wordlist in
  if decide (length wordlist ≠ 256)
  then Throw (Error "Wordlist must have exactly 256 items")
  else Return {| wordlist := wordlist |}.

(** ** Strings: the pair regex and [parseInt] *)

Definition code (c : ascii) : nat := nat_of_ascii c.

(** The line terminators, which [.] does not match. *)
Definition is_line_terminator (c : ascii) : bool :=
  bool_decide (code c = 10) || bool_decide (code c = 13).

(** The successive matches of [/(..?)/g]: at a character that [.] matches,
    that character and, greedily, the next one if [.] matches it too; the
    search resumes after the match, or one character further when there is
    none here. *)
Fixpoint match_all (s : string) : list string :=
  match s with
  | EmptyString => []
  | String c rest =>
      if is_line_terminator c then match_all rest
      else
        match rest with
        | EmptyString => [String c EmptyString]
        | String c' rest' =>
            if is_line_terminator c'
            then String c EmptyString :: match_all rest
            else String c (String c' EmptyString) :: match_all rest'
        end
  end.

(** [hexdigest.match(/(..?)/g)]: the array of matches, or [null] ([None])
    when there is none. *)
Definition match_pairs (hexdigest : string) : option (list string) :=
  match match_all hexdigest with
  | [] => None
  | pairs => Some pairs
  end.

(** White space that [parseInt] skips: TAB, LF, VT, FF, CR, SP, NBSP. *)
Definition is_white_space (c : ascii) : bool :=
  bool_decide (code c ∈ [9; 10; 11; 12; 13; 32; 160]).

(** The value of a digit [0-9], [a-z] or [A-Z]. *)
Definition digit_value (c : ascii) : option nat :=
  let n := code c in
  if bool_decide (48 ≤ n ≤ 57) then Some (n - 48)
  else if bool_decide (97 ≤ n ≤ 122) then Some (n - 97 + 10)
  else if bool_decide (65 ≤ n ≤ 90) then Some (n - 65 + 10)
  else None.

Definition radix_digit (R : nat) (c : ascii) : option nat :=
  match digit_value c with
  | Some d => if bool_decide (d < R) then Some d else None
  | None => None
  end.

Fixpoint trim_start (s : string) : string :=
  match s with
  | String c rest => if is_white_space c then trim_start rest else s
  | EmptyString => s
  end.

(** The longest prefix of radix-[R] digits, most significant first. *)
Fixpoint leading_digits (R : nat) (s : string) : list nat :=
  match s with
  | String c rest =>
      match radix_digit R c with
      | Some d => d :: leading_digits R rest
      | None => []
      end
  | EmptyString => []
  end.

Definition digits_value (R : nat) (digits : list nat) : Z :=
  foldl (fun acc d => (acc * Z.of_nat R + Z.of_nat d)%Z) 0%Z digits.

(** [parseInt(string, radix)] for a radix given as a non-negative integer,
    following the steps of the language definition.  The value is exact; the
    source applies it to groups of at most two characters. *)
Definition parseInt (string : string) (radix : nat) : number :=
  let S := trim_start string in
  let sign : Z :=
    match S with String "-" _ => (-1)%Z | _ => 1%Z end in
  let S :=
    match S with
    | String "-" rest | String "+" rest => rest
    | _ => S
    end in
  if bool_decide (radix ≠ 0) && bool_decide (radix < 2 ∨ 36 < radix) then NaN
  else
    let stripPrefix := bool_decide (radix = 0 ∨ radix = 16) in
    let has_prefix :=
      match S with
      | String "0" (String "x" _) | String "0" (String "X" _) => stripPrefix
      | _ => false
      end in
    let R := if has_prefix then 16 else if bool_decide (radix = 0) then 10
             else radix in
    let S :=
      match S with
      | String _ (String _ rest) => if has_prefix then rest else S
      | _ => S
      end in
    match leading_digits R S with
    | [] => NaN
    | digits => Int (sign * digits_value R digits)
    end.

(** ** [humanize] *)

(** [a[x]] for a number [x]: the element when [x] is an index of [a],
    [undefined] ([None]) otherwise. *)
Definition get {A} (a : list A) (x : number) : option A :=
  match x with
  | Int z => if decide (0 ≤ z)%Z then a !! Z.to_nat z else None
  | NaN => None
  end.

(** [a.join(separator)]: an [undefined] element contributes the empty
    string. *)
Definition join (a : list (option string)) (separator : string) : string :=
  String.concat separator (default EmptyString <$> a).

(** [pairs.map((x) => parseInt(x, 16))], [null.map] being a [TypeError]. *)
Definition digest_bytes (hexdigest : string) : completion (list number) :=
  match match_pairs hexdigest with
  | None => Throw TypeError
  | Some pairs => Return ((fun x => parseInt x 16) <$> pairs)
  end.

(** [humanize(hexdigest, words = 4, separator = '-')]; [None] is an omitted
    argument. *)
Definition humanize (this : HumanHasher) (hexdigest : string)
    (words : option nat) (separator : option string) : completion string :=
  let words := default 4 words in
  let separator := default "-" separator in
  bytes ← digest_bytes hexdigest;
  compressed ← _compress bytes words;
  mret (join ((fun x => get (wordlist this) x) <$> compressed) separator).


(** ** [uuid] *)

(** [s.replace(new RegExp("-", 'g'), "")]: every "-" removed. *)
Fixpoint remove_dashes (s : string) : string :=
  match s with
  | EmptyString => EmptyString
  | String c rest =>
      if bool_decide (code c = 45) then remove_dashes rest
      else String c (remove_dashes rest)
  end.

(** The object [{humanhash: ..., uuid: ...}] that [uuid] returns. *)
Module Result.
Record t : Type := { humanhash : string; uuid : string }.
End Result.

(** [uuid(words = 4, seperator = '-', version = 4)].  [uuidv1] and [uuidv4]
    are the strings that [uuidv1()] and [uuidv4()] return when this call
    invokes them; only the one that [version] selects is invoked. *)
Definition uuid (uuidv1 uuidv4 : string) (this : HumanHasher)
    (words : option nat) (seperator : option string) (version : option nat)
  : completion Result.t :=
  let words := default 4 words in
  let seperator := default "-" seperator in
  let version := default 4 version in
  let uuid := remove_dashes (if decide (version = 4) then uuidv4 else uuidv1) in
  humanhash ← humanize this uuid (Some words) (Some seperator);
  mret {| Result.humanhash := humanhash; Result.uuid := uuid |}.


(** * The methods on the store

    The arrays of the program are objects: [segments] is filled with [push]
    and updated in place, a [HumanHasher] holds a reference to the array it
    was given (the array of the caller, or the one array [DEFAULT_WORDLIST]
    of the module), and every [slice], [concat], [map] and [match] makes a
    new array.  Here the methods run on a store of arrays and of
    [HumanHasher] objects: a location is an index of the store, a new object
    takes the next index, and a throw leaves the store as it is at that
    point.  Numbers and strings are values, not objects. *)
Module Store.

(** An array, by the kind of its elements: numbers ([bytes], a segment,
    [checksums]), strings ([pairs], a word list), looked-up words (a string
    or [undefined]), or references to arrays ([segments]). *)
Inductive array : Type :=
| Numbers (a : list number)
| Strings (a : list string)
| Words (a : list (option string))
| Arrays (a : list nat).

(** [objects] holds, for each [HumanHasher], its field [wordlist]. *)
Record store : Type := { arrays : list array; objects : list nat }.

Definition M (A : Type) : Type := store → completion A * store.

#[global] Instance M_ret : MRet M := λ A a σ, (Return a, σ).
#[global] Instance M_bind : MBind M := λ A B f m σ,
  match m σ with
  | (Return a, σ') => f a σ'
  | (Throw e, σ') => (Throw e, σ')
  end.

Definition throw {A} (e : exn) : M A := λ σ, (Throw e, σ).

(** The outcome of a computation on values. *)
Definition lift {A} (c : completion A) : M A := λ σ, (c, σ).

(** A new array. *)
Definition alloc (a : array) : M nat := λ σ,
  (Return (length (arrays σ)),
   {| arrays := arrays σ ++ [a]; objects := objects σ |}).

(** The array at a reference.  A reference of the program always points to
    an array, of the kind the program put there; the other cases are given
    a [TypeError]. *)
Definition read (l : nat) : M array := λ σ,
  match arrays σ !! l with
  | Some a => (Return a, σ)
  | None => (Throw TypeError, σ)
  end.

Definition read_numbers (l : nat) : M (list number) :=
  a ← read l; match a with Numbers x => mret x | _ => throw TypeError end.

Definition read_strings (l : nat) : M (list string) :=
  a ← read l; match a with Strings x => mret x | _ => throw TypeError end.

Definition read_words (l : nat) : M (list (option string)) :=
  a ← read l; match a with Words x => mret x | _ => throw TypeError end.

Definition read_arrays (l : nat) : M (list nat) :=
  a ← read l; match a with Arrays x => mret x | _ => throw TypeError end.

(** An array updated in place. *)
Definition write (l : nat) (a : array) : M () := λ σ,
  (Return (), {| arrays := <[l:=a]> (arrays σ); objects := objects σ |}).

(** The module's [DEFAULT_WORDLIST] is the first array of the store. *)
Definition DEFAULT_WORDLIST_ref : nat := 0.

Definition initial : store :=
  {| arrays := [Strings DEFAULT_WORDLIST]; objects := [] |}.

(** [new HumanHasher(wordlist)]: the new object keeps the reference. *)
Definition constructor (wordlist : option nat) : M nat :=
  let wordlist := default DEFAULT_WORDLIST_ref wordlist in
  wl ← read_strings wordlist;
  if decide (length wl ≠ 256)
  then throw (Error "Wordlist must have exactly 256 items")
  else λ σ,
    (Return (length (objects σ)),
     {| arrays := arrays σ; objects := objects σ ++ [wordlist] |}).

(** [this.wordlist] *)
Definition this_wordlist (this : nat) : M nat := λ σ,
  match objects σ !! this with
  | Some l => (Return l, σ)
  | None => (Throw TypeError, σ)
  end.

(** [segments.push(bytes.slice(i, i+seg_size))] *)
Definition push_slice (bytes : nat) (i seg_size : nat) (segments : nat)
  : M () :=
  b ← read_numbers bytes;
  s ← alloc (Numbers (slice b i (i + seg_size)));
  segs ← read_arrays segments;
  write segments (Arrays (segs ++ [s])).

(** The loop of [_compress], from the current [i] and store. *)
Equations? split_loop (bytes : nat) (seg_size target i : nat)
    (segments : nat) (σ : store) : completion () * store
    by wf (seg_size * target - i) lt :=
  split_loop bytes seg_size target i segments σ
    with decide (i < seg_size * target) => {
    | left _ with push_slice bytes i seg_size segments σ => {
      | (Return _, σ') =>
          split_loop bytes seg_size target (i + seg_size) segments σ';
      | (Throw e, σ') => (Throw e, σ') };
    | right _ => (Return (), σ) }.
Proof. nia. Qed.

Definition _compress (bytes : nat) (target : nat) : M nat :=
  b ← read_numbers bytes;
  let length := length b in
  if decide (length < target) then throw InsufficientInput
  else
    let seg_size := seg_size_of length target in
    segments ← alloc (Arrays []);
    _ ← split_loop bytes seg_size target 0 segments;
    segs ← read_arrays segments;
    last ← match segs !! (List.length segs - 1) with
           | Some l => mret l
           | None => throw TypeError
           end;
    last_segment ← read_numbers last;
    b ← read_numbers bytes;
    leftover ← alloc (Numbers (slice_from b (target * seg_size)));
    t ← read_numbers leftover;
    joined ← alloc (Numbers (last_segment ++ t));
    segs ← read_arrays segments;
    _ ← write segments (Arrays (<[List.length segs - 1 := joined]> segs));
    segs ← read_arrays segments;
    checksums ← mapM (λ x, s ← read_numbers x; lift (reduce_xor s)) segs;
    alloc (Numbers checksums).

Definition humanize (this : nat) (hexdigest : string)
    (words : option nat) (separator : option string) : M string :=
  let words := default 4 words in
  let separator := default "-" separator in
  pairs ← match match_pairs hexdigest with
          | Some p => alloc (Strings p)
          | None => throw TypeError
          end;
  ps ← read_strings pairs;
  bytes ← alloc (Numbers ((λ x, parseInt x 16) <$> ps));
  compressed ← _compress bytes words;
  cs ← read_numbers compressed;
  ws ← mapM (λ x, wordlist ← this_wordlist this;
                  wl ← read_strings wordlist;
                  mret (get wl x)) cs;
  out ← alloc (Words ws);
  w ← read_words out;
  mret (join w separator).

(** What a run may do to the store it starts from: add arrays. *)
Definition extends (σ σ' : store) : Prop :=
  objects σ' = objects σ ∧ take (length (arrays σ)) (arrays σ') = arrays σ.

(** The arrays of numbers that a list of references points to. *)
Definition resolves (σ : store) (above : nat) (locs : list nat)
    (segs : list (list number)) : Prop :=
  Forall2 (λ l a, above < l ∧ arrays σ !! l = Some (Numbers a)) locs segs.

End Store.

(** * Vocabulary of the properties *)

(** A byte in the sense of the specification: an integer from 0 to 255. *)
Definition is_byte (x : number) : Prop :=
  match x with
  | Int z => (0 <= z <= 255)%Z
  | NaN => False
  end.

(** A hexadecimal character: [0-9], [a-f] or [A-F]. *)
Definition is_hex_char (c : ascii) : bool :=
  bool_decide (48 ≤ code c ≤ 57 ∨ 97 ≤ code c ≤ 102 ∨ 65 ≤ code c ≤ 70).

Fixpoint all_hex (s : string) : bool :=
  match s with
  | EmptyString => true
  | String c rest => is_hex_char c && all_hex rest
  end.

(** A valid digest in the sense of the specification: non-empty, of even
    length, made of hexadecimal characters. *)
Definition valid_hexdigest (d : string) : bool :=
  bool_decide (d ≠ EmptyString) && Nat.even (String.length d) && all_hex d.

Definition is_byteb (x : number) : bool :=
  match x with
  | Int z => bool_decide (0 ≤ z ≤ 255)%Z
  | NaN => false
  end.

Definition is_nibbleb (x : number) : bool :=
  match x with
  | Int z => bool_decide (0 ≤ z ≤ 15)%Z
  | NaN => false
  end.

(** [c] is the left-to-right XOR-fold of [seg], the accumulator starting
    at the first element. *)
Definition xor_fold_of (seg : list number) (c : number) : Prop :=
  ∃ first rest, seg = first :: rest ∧ c = foldl xor first rest.

(** The [j]-th segment the loop pushes. *)
Definition chunk (bytes : list number) (s j : nat) : list number :=
  slice bytes (j * s) (j * s + s).

(** An integer in the range of [ToInt32]. *)
Definition is_int32 (x : number) : Prop :=
  match x with
  | Int z => (- 2 ^ 31 ≤ z < 2 ^ 31)%Z
  | NaN => False
  end.

(** The XOR of the [ToInt32] of all the elements. *)
Definition xor_all (l : list number) : Z :=
  foldr (λ x acc, Z.lxor (ToInt32 x) acc) 0%Z l.

(** A string the pair pattern finds no group in: only line terminators. *)
Fixpoint all_line_terminators (s : string) : bool :=
  match s with
  | EmptyString => true
  | String c rest => is_line_terminator c && all_line_terminators rest
  end.

(** Lower case of the letters [A-Z]. *)
Definition lower (c : ascii) : ascii :=
  if bool_decide (65 ≤ code c ≤ 90) then ascii_of_nat (code c + 32) else c.

Fixpoint lower_string (s : string) : string :=
  match s with
  | EmptyString => EmptyString
  | String c rest => String (lower c) (lower_string rest)
  end.

(** A word that is not empty and has no "-" in it. *)
Fixpoint dash_free (w : string) : bool :=
  match w with
  | EmptyString => true
  | String c rest => negb (bool_decide (code c = 45)) && dash_free rest
  end.

Definition plain_word (w : string) : bool :=
  negb (bool_decide (w = EmptyString)) && dash_free w.

(** A string that follows a pattern of dashes ([true]) and hexadecimal
    characters ([false]), position by position. *)
Fixpoint follows (pattern : list bool) (s : string) : bool :=
  match pattern, s with
  | [], EmptyString => true
  | dash :: pattern, String c rest =>
      (if dash then bool_decide (code c = 45) else is_hex_char c)
      && follows pattern rest
  | _, _ => false
  end.

(** The textual form of a UUID: 8, 4, 4, 4 and 12 hexadecimal characters
    separated by dashes. *)
Definition uuid_pattern : list bool :=
  replicate 8 false ++ [true] ++ replicate 4 false ++ [true]
  ++ replicate 4 false ++ [true] ++ replicate 4 false ++ [true]
  ++ replicate 12 false.

Definition is_canonical_uuid (s : string) : bool := follows uuid_pattern s.

#[global] Instance number_eq_dec : EqDecision number.
Proof. solve_decision. Defined.

(** Every character, and the hexadecimal ones, for case analysis by
    enumeration. *)
Definition all_ascii : list ascii := ascii_of_nat <$> seq 0 256.

Definition hex_chars : list ascii := List.filter is_hex_char all_ascii.

(** Two [Return]s of one computation carry the same value. *)
Ltac same_return H1 H2 := rewrite H1 in H2; injection H2 as <-.

(** * The embedding on small inputs *)

Example parseInt_examples :
  parseInt "1A" 16 = Int 26 ∧ parseInt "ff" 16 = Int 255 ∧
  parseInt "c" 16 = Int 12 ∧ parseInt "1g" 16 = Int 1 ∧
  parseInt "g1" 16 = NaN ∧ parseInt "0x" 16 = NaN ∧
  parseInt "-f" 16 = Int (-15) ∧ parseInt "+f" 16 = Int 15 ∧
  parseInt " 7" 16 = Int 7.
Proof. repeat split; reflexivity. Qed.

Example match_pairs_examples :
  match_pairs "1A2B3C4D" = Some ["1A"; "2B"; "3C"; "4D"] ∧
  match_pairs "abc" = Some ["ab"; "c"] ∧
  match_pairs EmptyString = None ∧
  match_pairs (String "a" (String (ascii_of_nat 10) "bcd"))
    = Some ["a"; "bc"; "d"].
Proof. repeat split; reflexivity. Qed.

Example xor_examples :
  xor (Int 26) (Int 43) = Int 49 ∧ xor NaN (Int 5) = Int 5 ∧
  xor (Int (-1)) (Int 5) = Int (-6) ∧
  reduce_xor [NaN] = Return NaN ∧ reduce_xor [] = Throw TypeError.
Proof. repeat split; reflexivity. Qed.

Example compress_examples :
  _compress [Int 1; Int 2; Int 3; Int 4; Int 5; Int 6; Int 7; Int 8; Int 9;
             Int 10] 3 = Return [Int 0; Int 7; Int 12] ∧
  _compress [Int 26; Int 43] 2 = Return [Int 26; Int 43] ∧
  _compress [Int 26; Int 43] 3 = Throw InsufficientInput ∧
  _compress [Int 26; Int 43] 0 = Throw TypeError.
Proof. repeat split; reflexivity. Qed.

(** * Properties of [_compress] *)

Lemma split_loop_step bytes s t i segs :
  split_loop bytes s t i segs =
  if decide (i < s * t)
  then split_loop bytes s t (i + s) (segs ++ [slice bytes i (i + s)])
  else segs.
Proof. rewrite split_loop_equation_1. by destruct (decide _). Qed.

Lemma split_loop_chunks bytes s t n : ∀ k segs,
  0 < s → k + n = t →
  split_loop bytes s t (k * s) segs = segs ++ (chunk bytes s <$> seq k n).
Proof.
  induction n as [|n IH]; intros k segs Hs Hk; rewrite split_loop_step.
  - rewrite decide_False by nia. simpl. by rewrite app_nil_r.
  - rewrite decide_True by nia.
    change (slice bytes (k * s) (k * s + s)) with (chunk bytes s k).
    replace (k * s + s) with (S k * s) by lia.
    rewrite IH by lia. simpl. by rewrite <- app_assoc.
Qed.

Lemma split_loop_zero bytes t i segs : split_loop bytes 0 t i segs = segs.
Proof. rewrite split_loop_step. by rewrite decide_False by lia. Qed.

Lemma chunk_length bytes s j :
  j * s + s ≤ length bytes → length (chunk bytes s j) = s.
Proof.
  intros H. unfold chunk, slice. rewrite length_take, length_drop. lia.
Qed.

Lemma concat_chunks bytes s n :
  concat (chunk bytes s <$> seq 0 n) = take (n * s) bytes.
Proof.
  induction n as [|n IH]; [done|].
  rewrite seq_S, fmap_app, concat_app, IH. simpl.
  unfold chunk, slice. rewrite app_nil_r.
  replace (n * s + s - n * s) with s by lia.
  rewrite take_take_drop. f_equal. lia.
Qed.

Lemma seg_size_pos n T : 1 ≤ T ≤ n → 1 ≤ n / T ∧ T * (n / T) ≤ n.
Proof.
  intros H. split.
  - apply Nat.div_le_lower_bound; lia.
  - apply Nat.Div0.mul_div_le.
Qed.

(** The segments for [1 <= T <= N]: [T - 1] chunks of [N / T] bytes, then
    everything that is left. *)
Lemma segments_of_spec bytes T :
  1 ≤ T ≤ length bytes →
  segments_of bytes T =
  Return ((chunk bytes (length bytes / T) <$> seq 0 (T - 1))
            ++ [slice_from bytes ((T - 1) * (length bytes / T))]).
Proof.
  intros HT. destruct (seg_size_pos _ _ HT) as [Hs Hle].
  unfold segments_of, seg_size_of. destruct T as [|T']; [lia|].
  set (s := length bytes / S T') in *. cbv zeta.
  change 0 with (0 * s) at 1.
  rewrite (split_loop_chunks bytes s (S T') (S T') 0 []) by lia.
  rewrite app_nil_l, seq_S, fmap_app. simpl.
  replace (T' - 0) with T' by lia.
  set (init := chunk bytes s <$> seq 0 T').
  assert (Hlen : length init = T') by (unfold init; by rewrite length_fmap, length_seq).
  unfold catch_leftover. rewrite length_app. simpl.
  replace (length init + 1 - 1) with (length init + 0) by lia.
  rewrite lookup_app_r by lia.
  replace (length init + 0 - length init) with 0 by lia. simpl.
  rewrite insert_app_r. simpl.
  do 3 f_equal. unfold chunk, slice, slice_from.
  replace (T' * s + s - T' * s) with s by lia.
  replace (s + T' * s) with (T' * s + s) by lia.
  rewrite <- (drop_drop bytes s (T' * s)). apply take_drop.
Qed.

Lemma mapM_reduce_xor segs :
  Forall (λ seg, seg ≠ []) segs →
  ∃ checksums,
    mapM reduce_xor segs = Return checksums ∧
    Forall2 xor_fold_of segs checksums.
Proof.
  induction 1 as [|seg segs Hne _ (checksums & Hm & HF)].
  - exists []. split; [done | constructor].
  - destruct seg as [|first rest]; [done|].
    exists (foldl xor first rest :: checksums). split.
    + cbn. rewrite Hm. done.
    + constructor; [by exists first, rest | done].
Qed.

Lemma mapM_reduce_xor_singletons segs :
  Forall (λ seg, length seg = 1) segs →
  mapM reduce_xor segs = Return (concat segs).
Proof.
  induction 1 as [|seg segs Hlen _ IH]; [done|].
  destruct seg as [|first [|? ?]]; try done.
  cbn. by rewrite IH.
Qed.

(** What [segments_of] returns for [1 <= T <= N], property by property. *)
Lemma segments_of_props bytes T :
  1 ≤ T ≤ length bytes →
  let s := length bytes / T in
  ∃ segments,
    segments_of bytes T = Return segments ∧
    length segments = T ∧
    (∀ i, i < T - 1 →
       segments !! i = Some (slice bytes (i * s) (i * s + s)) ∧
       length (slice bytes (i * s) (i * s + s)) = s) ∧
    (segments !! (T - 1) = Some (slice_from bytes ((T - 1) * s)) ∧
     length (slice_from bytes ((T - 1) * s)) = s + length bytes mod T) ∧
    concat segments = bytes.
Proof.
  intros HT s. destruct (seg_size_pos _ _ HT) as [Hs Hle]. fold s in Hs, Hle.
  eexists. split; [by apply segments_of_spec|]. fold s.
  set (init := chunk bytes s <$> seq 0 (T - 1)).
  assert (Hlen : length init = T - 1)
    by (unfold init; by rewrite length_fmap, length_seq).
  repeat split.
  - rewrite length_app, Hlen. simpl. lia.
  - rewrite lookup_app_l by lia. unfold init.
    rewrite list_lookup_fmap, lookup_seq_lt by done. done.
  - apply (chunk_length bytes s i). nia.
  - replace (T - 1) with (length init + 0) at 1 by lia.
    rewrite lookup_app_r by lia.
    by replace (length init + 0 - length init) with 0 by lia.
  - unfold slice_from. rewrite length_drop.
    pose proof (Nat.div_mod_eq (length bytes) T). fold s in H. nia.
  - rewrite concat_app. unfold init. rewrite concat_chunks. simpl.
    rewrite app_nil_r. apply take_drop.
Qed.

Lemma segments_nonempty bytes T segments :
  1 ≤ T ≤ length bytes →
  segments_of bytes T = Return segments →
  Forall (λ seg, seg ≠ []) segments.
Proof.
  intros HT Hseg. destruct (seg_size_pos _ _ HT) as [Hs Hle].
  destruct (segments_of_props bytes T HT)
    as (segs & Hsegs & Hlen & Hinit & [Hlast Hlastlen] & _).
  same_return Hseg Hsegs.
  apply Forall_lookup_2. intros i seg Hi.
  pose proof (lookup_lt_Some _ _ _ Hi) as Hlt.
  destruct (decide (i < T - 1)) as [Hlt'|Hge].
  - destruct (Hinit i Hlt') as [Hi' Hl]. rewrite Hi in Hi'.
    injection Hi' as ->. intros E. rewrite E in Hl. simpl in Hl. lia.
  - replace i with (T - 1) in Hi by lia. rewrite Hi in Hlast.
    injection Hlast as ->. intros E. rewrite E in Hlastlen. simpl in Hlastlen.
    lia.
Qed.

(** [_compress] returns for every [1 <= T <= N]: the XOR-folds of the
    segments. *)
Lemma compress_returns bytes T :
  1 ≤ T ≤ length bytes →
  ∃ segments checksums,
    segments_of bytes T = Return segments ∧
    _compress bytes T = Return checksums ∧
    Forall2 xor_fold_of segments checksums.
Proof.
  intros HT.
  destruct (segments_of_props bytes T HT) as (segments & Hseg & _).
  destruct (mapM_reduce_xor segments) as (checksums & Hm & HF);
    [by eapply segments_nonempty|].
  exists segments, checksums. repeat split; try done.
  unfold _compress. cbv zeta. rewrite decide_False by lia.
  rewrite Hseg. cbn. rewrite Hm. done.
Qed.

Lemma compress_returns_length bytes T :
  1 ≤ T ≤ length bytes →
  ∃ checksums, _compress bytes T = Return checksums ∧ length checksums = T.
Proof.
  intros HT.
  destruct (compress_returns bytes T HT) as (segments & checksums & Hs & Hc & HF).
  destruct (segments_of_props bytes T HT) as (segs & Hsegs & Hlen & _).
  same_return Hs Hsegs.
  exists checksums. split; [done|]. by rewrite <- (Forall2_length _ _ _ HF).
Qed.



(** C2.  For every sequence of [N] bytes, [_compress] with the target equal
    to [N] returns the sequence unchanged: every segment is one byte and the
    fold of one byte is that byte.  The target of [_compress] is at least 1,
    so the sequence has at least one byte. *)
Theorem compress_identity (bytes : list number) :
  bytes ≠ [] →
  _compress bytes (length bytes) = Return bytes.
Proof.
  intros Hne.
  assert (HT : 1 ≤ length bytes ≤ length bytes)
    by (destruct bytes; [done | simpl; lia]).
  destruct (segments_of_props _ _ HT)
    as (segments & Hseg & Hlen & Hinit & [Hlast Hlastlen] & Hcat).
  rewrite Nat.div_same, Nat.Div0.mod_same in * by lia.
  unfold _compress. cbv zeta. rewrite decide_False by lia.
  rewrite Hseg. cbn.
  rewrite mapM_reduce_xor_singletons; [by rewrite Hcat|].
  apply Forall_lookup_2. intros i seg Hi.
  pose proof (lookup_lt_Some _ _ _ Hi) as Hlt.
  destruct (decide (i < length bytes - 1)) as [Hlt'|Hge].
  - destruct (Hinit i Hlt') as [Hi' Hl]. rewrite Hi in Hi'.
    by injection Hi' as ->.
  - replace i with (length bytes - 1) in Hi by lia. rewrite Hi in Hlast.
    injection Hlast as ->. lia.
Qed.

Lemma compress_identity_witness :
  [Int 26; NaN] ≠ [] ∧
  _compress [Int 26; NaN] (length [Int 26; NaN]) = Return [Int 26; NaN].
Proof.
  split; [discriminate | apply (compress_identity [Int 26; NaN]); discriminate].
Defined.

(** C3.  [_compress] throws the "fewer input bytes" error exactly when the
    target exceeds the number of input bytes; the test is the first thing
    the function does, so the outcome then depends on nothing but the two
    counts; two bytes with target 3 throw. *)
Theorem compress_insufficient_input (bytes : list number) (target : nat) :
  (_compress bytes target = Throw InsufficientInput ↔ length bytes < target) ∧
  (∀ b0 b1 : number, _compress [b0; b1] 3 = Throw InsufficientInput).
Proof.
  assert (Hthrow : ∀ l : list number, length l < target →
            _compress l target = Throw InsufficientInput).
  { intros l Hl. unfold _compress. cbv zeta. by rewrite decide_True. }
  split; [split|].
  - intros H. destruct (decide (length bytes < target)) as [|Hge]; [done|].
    exfalso. destruct target as [|T'].
    + unfold _compress, segments_of, seg_size_of in H. cbv zeta in H.
      rewrite decide_False, split_loop_zero in H by lia. discriminate.
    + destruct (compress_returns bytes (S T')) as (? & ? & _ & Hc & _); [lia|].
      rewrite Hc in H. discriminate.
  - apply Hthrow.
  - reflexivity.
Qed.

(** ** Checksums of bytes are bytes *)

Lemma wrap32_byte z : (0 ≤ z ≤ 255)%Z → wrap32 z = z.
Proof. intros H. unfold wrap32. rewrite Z.mod_small; lia. Qed.

Lemma log2_byte z : (0 ≤ z ≤ 255)%Z → (Z.log2 z < 8)%Z.
Proof.
  intros H. destruct (decide (z = 0%Z)) as [->|Hz]; [done|].
  apply Z.log2_lt_pow2; lia.
Qed.

Lemma lxor_byte a b :
  (0 ≤ a ≤ 255)%Z → (0 ≤ b ≤ 255)%Z → (0 ≤ Z.lxor a b ≤ 255)%Z.
Proof.
  intros Ha Hb.
  assert (H0 : (0 ≤ Z.lxor a b)%Z) by (apply Z.lxor_nonneg; lia).
  split; [done|].
  destruct (decide (Z.lxor a b = 0%Z)) as [->|Hz]; [lia|].
  cut (Z.lxor a b < 2 ^ 8)%Z; [lia|].
  apply Z.log2_lt_pow2; [lia|].
  pose proof (Z.log2_lxor a b) as Hl.
  pose proof (log2_byte a Ha). pose proof (log2_byte b Hb). lia.
Qed.

Lemma xor_byte a b : is_byte a → is_byte b → is_byte (xor a b).
Proof.
  destruct a as [a|], b as [b|]; try done. simpl. intros Ha Hb.
  rewrite !wrap32_byte by done. by apply lxor_byte.
Qed.

Lemma foldl_xor_byte rest : ∀ acc,
  is_byte acc → Forall is_byte rest → is_byte (foldl xor acc rest).
Proof.
  induction rest as [|b rest IH]; intros acc Hacc Hrest; [done|].
  inversion Hrest; subst. simpl. apply IH; [by apply xor_byte | done].
Qed.

Lemma xor_fold_byte seg c :
  xor_fold_of seg c → Forall is_byte seg → is_byte c.
Proof.
  intros (first & rest & -> & ->) H. inversion H; subst.
  by apply foldl_xor_byte.
Qed.

Lemma compress_bytes bytes target checksums :
  Forall is_byte bytes → 1 ≤ target ≤ length bytes →
  _compress bytes target = Return checksums →
  length checksums = target ∧ Forall is_byte checksums.
Proof.
  intros Hb HT Hc.
  destruct (compress_returns bytes target HT) as (segments & cs & Hs & Hc' & HF).
  same_return Hc Hc'.
  destruct (segments_of_props bytes target HT) as (segs & Hsegs & Hlen & _ & _ & Hcat).
  same_return Hs Hsegs.
  split; [by rewrite <- (Forall2_length _ _ _ HF)|].
  rewrite <- Hcat in Hb. apply Forall_concat in Hb.
  clear Hs Hc Hlen Hcat. induction HF as [|seg c segs cs Hx _ IH]; [constructor|].
  inversion Hb; subst. constructor; [by eapply xor_fold_byte | by apply IH].
Qed.

(** After the digest is parsed, [humanize] is [_compress] followed by the
    lookups and the join. *)
Lemma humanize_bytes this d words separator bytes :
  digest_bytes d = Return bytes →
  humanize this d words separator =
  compressed ← _compress bytes (default 4 words);
  mret (join ((λ x, get (wordlist this) x) <$> compressed)
          (default "-" separator)).
Proof. intros H. unfold humanize. cbv zeta. by rewrite H. Qed.

(** A byte is an index of a 256-word list. *)
Lemma get_byte (wl : list string) x :
  length wl = 256 → is_byte x → ∃ word, get wl x = Some word ∧ word ∈ wl.
Proof.
  intros Hlen Hx. destruct x as [z|]; [|done]. simpl in *.
  rewrite decide_True by lia.
  destruct (lookup_lt_is_Some_2 wl (Z.to_nat z)) as [word Hw]; [lia|].
  exists word. split; [done|]. by eapply list_elem_of_lookup_2.
Qed.

Lemma constructor_Return wl this :
  constructor wl = Return this →
  wordlist this = default DEFAULT_WORDLIST wl ∧ length (wordlist this) = 256.
Proof.
  unfold constructor. cbv zeta. destruct (decide _) as [|Hl]; [done|].
  intros [= <-]. simpl. split; [done | lia].
Qed.

(** The words of a phrase: every looked-up element is a word. *)
Lemma join_words (wl : list string) (xs : list number) (ws : list string) sep :
  Forall2 (λ x w, get wl x = Some w) xs ws →
  join ((λ x, get wl x) <$> xs) sep = String.concat sep ws.
Proof.
  intros H. unfold join. f_equal.
  induction H as [|x w xs ws Hx _ IH]; [done|].
  by rewrite !fmap_cons, Hx, IH.
Qed.

Lemma get_bytes (wl : list string) xs :
  length wl = 256 → Forall is_byte xs →
  ∃ ws, length ws = length xs ∧
    Forall2 (λ x w, get wl x = Some w ∧ w ∈ wl) xs ws.
Proof.
  intros Hlen. induction 1 as [|x xs Hx _ (ws & Hl & HF)].
  - exists []. split; [done | constructor].
  - destruct (get_byte wl x Hlen Hx) as (w & Hw & Hin).
    exists (w :: ws). split; [simpl; by rewrite Hl | by constructor].
Qed.

(** C9.  When every input value is an integer from 0 to 255 and
    [1 <= target <= length], every checksum of [_compress] is again such an
    integer; so for a hasher that was constructed, every lookup
    [this.wordlist[x]] of [humanize] finds a word of the list, and the
    phrase [humanize] returns for a digest with these bytes is those words
    joined: no lookup comes back [undefined]. *)
Theorem checksums_in_range (bytes : list number) (target : nat)
    (wl : option (list string)) (this : HumanHasher) (separator : string) :
  Forall is_byte bytes →
  1 ≤ target ≤ length bytes →
  constructor wl = Return this →
  ∃ checksums words,
    _compress bytes target = Return checksums ∧
    Forall is_byte checksums ∧
    Forall2 (λ x w, get (wordlist this) x = Some w ∧ w ∈ wordlist this)
      checksums words ∧
    join ((λ x, get (wordlist this) x) <$> checksums) separator
      = String.concat separator words ∧
    (∀ hexdigest, digest_bytes hexdigest = Return bytes →
       humanize this hexdigest (Some target) (Some separator)
       = Return (String.concat separator words)).
Proof.
  intros Hb HT Hthis.
  destruct (compress_returns bytes target HT) as (? & checksums & _ & Hc & _).
  destruct (compress_bytes _ _ _ Hb HT Hc) as [_ Hcs].
  destruct (constructor_Return _ _ Hthis) as [_ Hlen].
  destruct (get_bytes (wordlist this) checksums Hlen Hcs) as (words & _ & HF).
  assert (Hj : join ((λ x, get (wordlist this) x) <$> checksums) separator
               = String.concat separator words).
  { apply join_words. eapply Forall2_impl; [exact HF|]. by intros ?? [? _]. }
  exists checksums, words. repeat split; try done.
  intros hexdigest Hd. rewrite (humanize_bytes _ _ _ _ _ Hd). simpl default.
  rewrite Hc. cbn. by rewrite Hj.
Qed.

Lemma checksums_in_range_witness :
  Forall is_byte [Int 255; Int 1; Int 7] ∧
  1 ≤ 2 ≤ length [Int 255; Int 1; Int 7] ∧
  constructor None = Return {| wordlist := DEFAULT_WORDLIST |} ∧
  ∃ checksums words,
    _compress [Int 255; Int 1; Int 7] 2 = Return checksums ∧
    Forall is_byte checksums ∧
    Forall2 (λ x w, get DEFAULT_WORDLIST x = Some w ∧ w ∈ DEFAULT_WORDLIST)
      checksums words ∧
    join ((λ x, get DEFAULT_WORDLIST x) <$> checksums) "-"
      = String.concat "-" words ∧
    (∀ hexdigest, digest_bytes hexdigest = Return [Int 255; Int 1; Int 7] →
       humanize {| wordlist := DEFAULT_WORDLIST |} hexdigest (Some 2)
         (Some "-")
       = Return (String.concat "-" words)).
Proof.
  assert (Hb : Forall is_byte [Int 255; Int 1; Int 7])
    by (repeat constructor; simpl; lia).
  assert (HT : 1 ≤ 2 ≤ length [Int 255; Int 1; Int 7]) by (simpl; lia).
  assert (Hc : constructor None = Return {| wordlist := DEFAULT_WORDLIST |})
    by reflexivity.
  split; [exact Hb|]. split; [exact HT|]. split; [exact Hc|].
  exact (checksums_in_range _ 2 None {| wordlist := DEFAULT_WORDLIST |} "-"
           Hb HT Hc).
Defined.

(** * The constructor *)

(** C4.  Construction throws the "exactly 256 items" error exactly when the
    supplied list does not have 256 entries; with 256 entries it returns a
    hasher holding that list, whatever the entries are, for instance 256
    times the same word. *)
Theorem constructor_checks_length (wl : list string) :
  (constructor (Some wl) = Throw InvalidConfiguration ↔ length wl ≠ 256) ∧
  (constructor (Some wl) = Return {| wordlist := wl |} ↔ length wl = 256) ∧
  constructor (Some (replicate 256 "ack"))
    = Return {| wordlist := replicate 256 "ack" |}.
Proof.
  unfold constructor, InvalidConfiguration. cbv zeta. simpl default.
  repeat split.
  - destruct (decide (length wl ≠ 256)); [done | discriminate].
  - intros H. by rewrite decide_True.
  - destruct (decide (length wl ≠ 256)); [discriminate | lia].
  - intros H. by rewrite decide_False by lia.
Qed.

(** * Digests *)

Lemma is_byteb_spec x : is_byteb x = true → is_byte x.
Proof. destruct x; simpl; [by intros ?%bool_decide_eq_true | done]. Qed.

(** ** Case analysis on characters by enumeration *)

Lemma all_ascii_complete c : c ∈ all_ascii.
Proof.
  rewrite <- (ascii_nat_embedding c). apply list_elem_of_fmap_2.
  apply elem_of_seq. pose proof (nat_ascii_bounded c). lia.
Qed.

Lemma forall_hex (P : ascii → bool) :
  forallb P hex_chars = true → ∀ c, is_hex_char c = true → P c = true.
Proof.
  intros H c Hc. rewrite forallb_forall in H. apply H.
  apply filter_In. split; [|done].
  apply list_elem_of_In, all_ascii_complete.
Qed.

Lemma forall_hex2 (P : ascii → ascii → bool) :
  forallb (λ c1, forallb (P c1) hex_chars) hex_chars = true →
  ∀ c1 c2, is_hex_char c1 = true → is_hex_char c2 = true → P c1 c2 = true.
Proof.
  intros H c1 c2 H1 H2. apply forall_hex; [|done].
  by apply (forall_hex _ H c1).
Qed.

Lemma hex_not_line_terminator c :
  is_hex_char c = true → is_line_terminator c = false.
Proof.
  intros Hc. apply negb_true_iff. revert c Hc.
  apply forall_hex. vm_compute. reflexivity.
Qed.

(** One hexadecimal character parses to a value from 0 to 15. *)
Lemma parseInt_hex1 c :
  is_hex_char c = true →
  is_nibbleb (parseInt (String c EmptyString) 16) = true.
Proof. revert c. apply forall_hex. vm_compute. reflexivity. Qed.

(** Two hexadecimal characters parse to a value from 0 to 255. *)
Lemma parseInt_hex2 c1 c2 :
  is_hex_char c1 = true → is_hex_char c2 = true →
  is_byteb (parseInt (String c1 (String c2 EmptyString)) 16) = true.
Proof. revert c1 c2. apply forall_hex2. vm_compute. reflexivity. Qed.

(** ** The groups of a hexadecimal digest *)

Lemma hex_pairs_ind (P : string → Prop) :
  P EmptyString →
  (∀ c, is_hex_char c = true → P (String c EmptyString)) →
  (∀ c1 c2 s, is_hex_char c1 = true → is_hex_char c2 = true →
     all_hex s = true → P s → P (String c1 (String c2 s))) →
  ∀ s, all_hex s = true → P s.
Proof.
  intros H0 H1 H2 s.
  cut ((all_hex s = true → P s) ∧
       (∀ c, is_hex_char c = true → all_hex s = true → P (String c s)));
    [tauto|].
  induction s as [|a s [IH1 IH2]]; split; auto.
  - simpl. intros [Ha Hs]%andb_true_iff. auto.
  - simpl. intros c Hc [Ha Hs]%andb_true_iff. auto.
Qed.

Lemma match_all_hex2 c1 c2 s :
  is_hex_char c1 = true → is_hex_char c2 = true →
  match_all (String c1 (String c2 s))
  = String c1 (String c2 EmptyString) :: match_all s.
Proof.
  intros H1 H2. simpl.
  by rewrite (hex_not_line_terminator c1), (hex_not_line_terminator c2).
Qed.

Lemma match_all_hex1 c :
  is_hex_char c = true →
  match_all (String c EmptyString) = [String c EmptyString].
Proof. intros H. simpl. by rewrite (hex_not_line_terminator c). Qed.

Lemma half_up_step n : (S (S n) + 1) / 2 = S ((n + 1) / 2).
Proof.
  replace (S (S n) + 1) with ((n + 1) + 1 * 2) by lia.
  rewrite Nat.div_add by lia. lia.
Qed.

Lemma match_all_hex_length d :
  all_hex d = true → length (match_all d) = (String.length d + 1) / 2.
Proof.
  revert d. apply hex_pairs_ind.
  - done.
  - intros c Hc. by rewrite match_all_hex1.
  - intros c1 c2 s H1 H2 _ IH. rewrite match_all_hex2 by done.
    cbn [length String.length]. by rewrite half_up_step, IH.
Qed.

Lemma match_all_hex_bytes d :
  all_hex d = true → Forall (λ p, is_byte (parseInt p 16)) (match_all d).
Proof.
  revert d. apply hex_pairs_ind.
  - constructor.
  - intros c Hc. rewrite match_all_hex1 by done.
    constructor; [|constructor].
    pose proof (parseInt_hex1 c Hc) as H.
    destruct (parseInt (String c EmptyString) 16) as [z|]; [|done]. simpl in *.
    apply bool_decide_eq_true in H. lia.
  - intros c1 c2 s H1 H2 _ IH. rewrite match_all_hex2 by done.
    constructor; [|done]. by apply is_byteb_spec, parseInt_hex2.
Qed.

Lemma concat_empty_cons (p : string) (ps : list string) :
  String.concat EmptyString (p :: ps) = p +:+ String.concat EmptyString ps.
Proof.
  destruct ps as [|q ps]; [|done]. simpl.
  induction p as [|c p IH]; [done|].
  change (String c p +:+ EmptyString) with (String c (p +:+ EmptyString)).
  by f_equal.
Qed.

(** A digest of even length is cut into groups of two characters. *)
Lemma match_all_hex_even d :
  all_hex d = true → Nat.even (String.length d) = true →
  Forall (λ p, String.length p = 2) (match_all d) ∧
  String.concat EmptyString (match_all d) = d.
Proof.
  revert d.
  apply (hex_pairs_ind (λ d, Nat.even (String.length d) = true → _ ∧ _)).
  - split; [constructor | done].
  - done.
  - intros c1 c2 s H1 H2 _ IH Hev. rewrite match_all_hex2 by done.
    destruct (IH Hev) as [IHl IHc]. split; [by constructor|].
    rewrite concat_empty_cons, IHc. reflexivity.
Qed.

(** A digest of odd length is cut into groups of two characters followed
    by a group made of its last character alone. *)
Lemma match_all_hex_odd d :
  all_hex d = true → Nat.odd (String.length d) = true →
  ∃ pairs c,
    match_all d = pairs ++ [String c EmptyString] ∧
    Forall (λ p, String.length p = 2) pairs ∧
    is_hex_char c = true ∧
    d = String.concat EmptyString pairs +:+ String c EmptyString.
Proof.
  revert d.
  apply (hex_pairs_ind (λ d, Nat.odd (String.length d) = true → ∃ _ _, _)).
  - done.
  - intros c Hc _. exists [], c. rewrite match_all_hex1 by done.
    repeat split; [constructor | done].
  - intros c1 c2 s H1 H2 _ IH Hodd. rewrite match_all_hex2 by done.
    destruct (IH Hodd) as (pairs & c & Hm & Hl & Hc & Hd).
    exists (String c1 (String c2 EmptyString) :: pairs), c. rewrite Hm.
    repeat split; [by constructor | done |].
    rewrite concat_empty_cons.
    change (String c1 (String c2 s)
            = String c1 (String c2 (String.concat EmptyString pairs
                                      +:+ String c EmptyString))).
    by rewrite <- Hd.
Qed.

Lemma match_pairs_nonempty d :
  d ≠ EmptyString → all_hex d = true → match_pairs d = Some (match_all d).
Proof.
  intros Hne Hh. unfold match_pairs.
  pose proof (match_all_hex_length d Hh) as Hl.
  destruct (match_all d) as [|p ps]; [|done].
  destruct d as [|c1 [|c2 s]]; [done|done|].
  cbn [String.length] in Hl. rewrite half_up_step in Hl. done.
Qed.

(** The bytes of a digest made of hexadecimal characters: one per group,
    each from 0 to 255. *)
Lemma digest_bytes_hex d :
  d ≠ EmptyString → all_hex d = true →
  digest_bytes d = Return ((λ x, parseInt x 16) <$> match_all d) ∧
  length ((λ x, parseInt x 16) <$> match_all d) = (String.length d + 1) / 2 ∧
  Forall is_byte ((λ x, parseInt x 16) <$> match_all d).
Proof.
  intros Hne Hh. unfold digest_bytes. rewrite match_pairs_nonempty by done.
  repeat split.
  - by rewrite length_fmap, match_all_hex_length.
  - apply Forall_fmap. by apply match_all_hex_bytes.
Qed.

(** * Properties of [humanize] *)

Lemma even_half n : Nat.even n = true → (n + 1) / 2 = n / 2.
Proof.
  intros [k ->]%Nat.even_spec.
  rewrite (Nat.mul_comm 2 k), Nat.div_add_l, Nat.div_mul by lia.
  change (1 / 2) with 0. lia.
Qed.

Lemma compress_zero bytes : _compress bytes 0 = Throw TypeError.
Proof.
  unfold _compress, segments_of, seg_size_of. cbv zeta.
  rewrite decide_False by lia. by rewrite split_loop_zero.
Qed.

(** [humanize] on bytes from 0 to 255 with a word count in range: a phrase
    of that many words of the list. *)
Lemma humanize_phrase this d words separator bytes :
  length (wordlist this) = 256 →
  digest_bytes d = Return bytes →
  Forall is_byte bytes →
  1 ≤ default 4 words ≤ length bytes →
  ∃ compressed ws,
    _compress bytes (default 4 words) = Return compressed ∧
    length ws = default 4 words ∧
    Forall2 (λ x w, get (wordlist this) x = Some w ∧ w ∈ wordlist this)
      compressed ws ∧
    humanize this d words separator
      = Return (String.concat (default "-" separator) ws).
Proof.
  intros Hlen Hd Hb HT.
  destruct (compress_returns bytes _ HT) as (? & compressed & _ & Hc & _).
  destruct (compress_bytes _ _ _ Hb HT Hc) as [Hn Hcs].
  destruct (get_bytes (wordlist this) compressed Hlen Hcs) as (ws & Hl & HF).
  exists compressed, ws. repeat split; try done; [congruence|].
  rewrite (humanize_bytes _ _ _ _ _ Hd), Hc. cbn. f_equal.
  apply join_words. eapply Forall2_impl; [exact HF|]. by intros ?? [? _].
Qed.

Lemma valid_hexdigest_inv d :
  valid_hexdigest d = true →
  d ≠ EmptyString ∧ Nat.even (String.length d) = true ∧ all_hex d = true.
Proof.
  unfold valid_hexdigest.
  intros [[Hne%bool_decide_eq_true Hev]%andb_true_iff Hh]%andb_true_iff.
  done.
Qed.

(** C5.  For a hasher that was constructed, a valid digest (non-empty,
    even length, hexadecimal characters) and a word count, which is a
    positive integer, not above the number of bytes of the digest,
    [humanize] returns exactly that many words of the word list joined by
    the separator. *)
Theorem humanize_word_count (wl : option (list string)) (this : HumanHasher)
    (D : string) (wordCount : nat) (separator : string) :
  constructor wl = Return this →
  valid_hexdigest D = true →
  1 ≤ wordCount ≤ String.length D / 2 →
  ∃ words,
    length words = wordCount ∧
    Forall (λ w, w ∈ wordlist this) words ∧
    humanize this D (Some wordCount) (Some separator)
      = Return (String.concat separator words).
Proof.
  intros Hthis (Hne & Hev & Hh)%valid_hexdigest_inv HT.
  destruct (constructor_Return _ _ Hthis) as [_ Hlen].
  destruct (digest_bytes_hex D Hne Hh) as (Hd & Hbl & Hb).
  rewrite even_half in Hbl by done.
  destruct (humanize_phrase this D (Some wordCount) (Some separator) _
              Hlen Hd Hb) as (compressed & ws & _ & Hl & HF & Hh');
    [simpl; lia|].
  exists ws. repeat split; try done.
  clear -HF. induction HF as [|???? [_ ?]]; by constructor.
Qed.

Lemma humanize_word_count_witness :
  constructor None = Return {| wordlist := DEFAULT_WORDLIST |} ∧
  valid_hexdigest "1a2b3c" = true ∧
  1 ≤ 2 ≤ String.length "1a2b3c" / 2 ∧
  ∃ words,
    length words = 2 ∧
    Forall (λ w, w ∈ DEFAULT_WORDLIST) words ∧
    humanize {| wordlist := DEFAULT_WORDLIST |} "1a2b3c" (Some 2) (Some "_")
      = Return (String.concat "_" words).
Proof.
  assert (H1 : constructor None = Return {| wordlist := DEFAULT_WORDLIST |})
    by reflexivity.
  assert (H2 : valid_hexdigest "1a2b3c" = true) by reflexivity.
  assert (H3 : 1 ≤ 2 ≤ String.length "1a2b3c" / 2) by (vm_compute; lia).
  split; [exact H1|]. split; [exact H2|]. split; [exact H3|].
  exact (humanize_word_count None _ "1a2b3c" 2 "_" H1 H2 H3).
Defined.

(** ** The concrete vectors *)

(** C7, as the code has it.  The digest "1A2B3C4D" parses to the bytes
    0x1A, 0x2B, 0x3C, 0x4D; with four words they are their own checksums;
    [humanize] returns the entries 26, 43, 60 and 77 of the word list joined
    by the separator, which for the default list are bravo, comet, eighteen
    and fourteen.  Ten bytes with target 3 are cut into segments of 3, 3 and
    4 bytes, and the last checksum folds the last four bytes. *)
Theorem humanize_concrete_vector :
  digest_bytes "1A2B3C4D" = Return [Int 26; Int 43; Int 60; Int 77] ∧
  _compress [Int 26; Int 43; Int 60; Int 77] 4
    = Return [Int 26; Int 43; Int 60; Int 77] ∧
  (∀ (this : HumanHasher) (separator : string),
     humanize this "1A2B3C4D" (Some 4) (Some separator)
     = Return (join [wordlist this !! 26; wordlist this !! 43;
                     wordlist this !! 60; wordlist this !! 77] separator)) ∧
  constructor None = Return {| wordlist := DEFAULT_WORDLIST |} ∧
  (∀ separator : string,
     humanize {| wordlist := DEFAULT_WORDLIST |} "1A2B3C4D" (Some 4)
       (Some separator)
     = Return (String.concat separator
                 ["bravo"; "comet"; "eighteen"; "fourteen"])) ∧
  humanize {| wordlist := DEFAULT_WORDLIST |} "1A2B3C4D" None None
    = Return "bravo-comet-eighteen-fourteen" ∧
  (∀ b0 b1 b2 b3 b4 b5 b6 b7 b8 b9 : number,
     segments_of [b0; b1; b2; b3; b4; b5; b6; b7; b8; b9] 3
     = Return [[b0; b1; b2]; [b3; b4; b5]; [b6; b7; b8; b9]] ∧
     _compress [b0; b1; b2; b3; b4; b5; b6; b7; b8; b9] 3
     = Return [xor (xor b0 b1) b2; xor (xor b3 b4) b5;
               xor (xor (xor b6 b7) b8) b9]).
Proof.
  repeat split; try reflexivity.
Qed.

(** C7 as stated names foxtrot as the fourth word; entry 77 of the default
    list is fourteen (foxtrot is entry 78). *)
Lemma humanize_concrete_vector_not_foxtrot :
  DEFAULT_WORDLIST !! 77 = Some "fourteen" ∧
  DEFAULT_WORDLIST !! 78 = Some "foxtrot" ∧
  humanize {| wordlist := DEFAULT_WORDLIST |} "1A2B3C4D" (Some 4) (Some "-")
    = Return "bravo-comet-eighteen-fourteen" ∧
  humanize {| wordlist := DEFAULT_WORDLIST |} "1A2B3C4D" (Some 4) (Some "-")
    ≠ Return (String.concat "-" ["bravo"; "comet"; "eighteen"; "foxtrot"]).
Proof. repeat split; try reflexivity. vm_compute. discriminate. Qed.

(** ** Malformed digests *)

(** The outcome of [humanize] on any digest, well formed or not: it depends
    on the number of groups the pair pattern finds and on the word count,
    and never on what the characters are. *)
Lemma humanize_outcome this d words separator :
  match match_pairs d with
  | None => humanize this d words separator = Throw TypeError
  | Some pairs =>
      if decide (default 4 words = 0)
      then humanize this d words separator = Throw TypeError
      else if decide (length pairs < default 4 words)
      then humanize this d words separator = Throw InsufficientInput
      else ∃ compressed,
        _compress ((λ x, parseInt x 16) <$> pairs) (default 4 words)
          = Return compressed ∧
        length compressed = default 4 words ∧
        humanize this d words separator
        = Return (join ((λ x, get (wordlist this) x) <$> compressed)
                    (default "-" separator))
  end.
Proof.
  destruct (match_pairs d) as [pairs|] eqn:Hm.
  - assert (Hd : digest_bytes d = Return ((λ x, parseInt x 16) <$> pairs))
      by (unfold digest_bytes; by rewrite Hm).
    rewrite (humanize_bytes _ _ _ _ _ Hd).
    destruct (decide (default 4 words = 0)) as [->|Hnz];
      [by rewrite compress_zero|].
    destruct (decide (length pairs < default 4 words)) as [Hlt|Hge].
    + unfold _compress. cbv zeta. by rewrite length_fmap, decide_True.
    + destruct (compress_returns_length ((λ x, parseInt x 16) <$> pairs)
                  (default 4 words)) as (compressed & Hc & Hl);
        [rewrite length_fmap; lia|].
      exists compressed. by rewrite Hc.
  - unfold humanize, digest_bytes. cbv zeta. by rewrite Hm.
Qed.

(** C8, as the code has it.  [humanize] does not validate its digest:
    the groups that the pair pattern finds are parsed and compressed as they
    are.  It returns a phrase exactly when the pattern finds at least one
    group and the word count is from 1 to the number of groups, whatever the
    characters and whatever the parity of the length.  It throws a
    [TypeError] exactly when the pattern finds no group or the word count is
    0, the "fewer input bytes" error exactly when there are groups, fewer
    than the word count, and never another error. *)
Theorem humanize_does_not_validate (this : HumanHasher) (d : string)
    (words : option nat) (separator : option string) :
  ((∃ phrase, humanize this d words separator = Return phrase) ↔
   (∃ pairs, match_pairs d = Some pairs ∧
             1 ≤ default 4 words ≤ length pairs)) ∧
  (humanize this d words separator = Throw TypeError ↔
   match_pairs d = None ∨ default 4 words = 0) ∧
  (humanize this d words separator = Throw InsufficientInput ↔
   ∃ pairs, match_pairs d = Some pairs ∧ length pairs < default 4 words) ∧
  (∀ e, humanize this d words separator = Throw e →
        e = TypeError ∨ e = InsufficientInput) ∧
  (∀ pairs, match_pairs d = Some pairs →
     humanize this d words separator =
     compressed ← _compress ((λ x, parseInt x 16) <$> pairs) (default 4 words);
     mret (join ((λ x, get (wordlist this) x) <$> compressed)
             (default "-" separator))).
Proof.
  pose proof (humanize_outcome this d words separator) as H.
  assert (Hlast : ∀ pairs, match_pairs d = Some pairs →
     humanize this d words separator =
     compressed ← _compress ((λ x, parseInt x 16) <$> pairs) (default 4 words);
     mret (join ((λ x, get (wordlist this) x) <$> compressed)
             (default "-" separator))).
  { intros pairs Hp. apply humanize_bytes. unfold digest_bytes. by rewrite Hp. }
  split; [|split; [|split; [|split; [|exact Hlast]]]]; clear Hlast.
  all: destruct (match_pairs d) as [pairs|];
    [destruct (decide (default 4 words = 0)) as [Hz|Hnz];
       [|destruct (decide (length pairs < default 4 words)) as [Hlt|Hge]]|];
    try (destruct H as (compressed & _ & _ & H)); rewrite H.
  (* returns a phrase *)
  - split; [by intros [? ?] | intros (? & [= <-] & ?); lia].
  - split; [by intros [? ?] | intros (? & [= <-] & ?); lia].
  - split; [intros _; exists pairs; split; [done | lia] | intros _; by eexists].
  - split; [by intros [? ?] | by intros (? & ? & _)].
  (* TypeError *)
  - split; [by right | done].
  - split; [done | intros [?|?]; [done | lia]].
  - split; [done | intros [?|?]; [done | lia]].
  - split; [by left | done].
  (* the other error *)
  - split; [done | intros (? & [= <-] & ?); lia].
  - split; [intros _; by exists pairs | done].
  - split; [done | intros (? & [= <-] & ?); lia].
  - split; [done | by intros (? & ? & _)].
  (* nothing else *)
  - intros e [= <-]. by left.
  - intros e [= <-]. by right.
  - by intros e.
  - intros e [= <-]. by left.
Qed.

(** C8 as stated fails: on a digest with characters that are not
    hexadecimal, or of odd length, [humanize] returns a phrase.  The one
    group of "zz" parses to [NaN], which is alone in its segment, is looked
    up as it is and gives the empty word; in "1g2h" each group parses to its
    leading digit; in "abc" the last character is a byte of its own. *)
Lemma humanize_accepts_malformed :
  all_hex "zz" = false ∧
  digest_bytes "zz" = Return [NaN] ∧
  humanize {| wordlist := DEFAULT_WORDLIST |} "zz" (Some 1) (Some "-")
    = Return EmptyString ∧
  all_hex "1g2h" = false ∧
  humanize {| wordlist := DEFAULT_WORDLIST |} "1g2h" (Some 2) (Some "-")
    = Return "alabama-alanine" ∧
  Nat.odd (String.length "abc") = true ∧
  humanize {| wordlist := DEFAULT_WORDLIST |} "abc" (Some 2) (Some "-")
    = Return "papa-aspen".
Proof. repeat split; reflexivity. Qed.

(** C10.  A digest of hexadecimal characters of odd length is parsed
    without error: the pair pattern yields groups of two characters and
    then the last character as a group of its own, which parses to a value
    from 0 to 15; there are [(length + 1) / 2] bytes, all from 0 to 255,
    and [humanize] computes the phrase from them, returning it whenever the
    word count is from 1 to that number of bytes. *)
Theorem humanize_odd_length_digest (this : HumanHasher) (d : string)
    (words : option nat) (separator : option string) :
  all_hex d = true →
  Nat.odd (String.length d) = true →
  ∃ pairs c v bytes,
    match_pairs d = Some (pairs ++ [String c EmptyString]) ∧
    Forall (λ p, String.length p = 2) pairs ∧
    d = String.concat EmptyString pairs +:+ String c EmptyString ∧
    parseInt (String c EmptyString) 16 = Int v ∧ (0 ≤ v ≤ 15)%Z ∧
    bytes = ((λ x, parseInt x 16) <$> pairs) ++ [Int v] ∧
    digest_bytes d = Return bytes ∧
    length bytes = (String.length d + 1) / 2 ∧
    Forall is_byte bytes ∧
    humanize this d words separator
      = (compressed ← _compress bytes (default 4 words);
         mret (join ((λ x, get (wordlist this) x) <$> compressed)
                 (default "-" separator))) ∧
    (1 ≤ default 4 words ≤ (String.length d + 1) / 2 →
     ∃ compressed,
       _compress bytes (default 4 words) = Return compressed ∧
       length compressed = default 4 words ∧
       humanize this d words separator
       = Return (join ((λ x, get (wordlist this) x) <$> compressed)
                   (default "-" separator))).
Proof.
  intros Hh Hodd.
  assert (Hne : d ≠ EmptyString) by (by intros ->).
  destruct (match_all_hex_odd d Hh Hodd) as (pairs & c & Hm & Hl & Hc & Hd).
  destruct (digest_bytes_hex d Hne Hh) as (Hdb & Hbl & Hb).
  pose proof (parseInt_hex1 c Hc) as Hv.
  destruct (parseInt (String c EmptyString) 16) as [v|] eqn:Hp; [|done].
  apply bool_decide_eq_true in Hv.
  rewrite Hm, fmap_app in Hdb, Hbl, Hb. simpl in Hdb, Hbl, Hb.
  rewrite Hp in Hdb, Hbl, Hb.
  exists pairs, c, v, (((λ x, parseInt x 16) <$> pairs) ++ [Int v]).
  split; [by rewrite match_pairs_nonempty, Hm|].
  do 8 (split; [done|]).
  split; [by apply humanize_bytes|].
  intros HT.
  destruct (compress_returns_length
              (((λ x, parseInt x 16) <$> pairs) ++ [Int v]) (default 4 words))
    as (compressed & Hcomp & Hlen); [by rewrite Hbl|].
  exists compressed. repeat split; try done.
  by rewrite (humanize_bytes _ _ _ _ _ Hdb), Hcomp.
Qed.

Lemma humanize_odd_length_digest_witness :
  all_hex "abc" = true ∧
  Nat.odd (String.length "abc") = true ∧
  ∃ compressed,
    _compress [Int 171; Int 12] 2 = Return compressed ∧
    humanize {| wordlist := DEFAULT_WORDLIST |} "abc" (Some 2) None
    = Return (join ((λ x, get DEFAULT_WORDLIST x) <$> compressed) "-").
Proof.
  assert (H1 : all_hex "abc" = true) by reflexivity.
  assert (H2 : Nat.odd (String.length "abc") = true) by reflexivity.
  split; [exact H1|]. split; [exact H2|].
  destruct (humanize_odd_length_digest {| wordlist := DEFAULT_WORDLIST |}
              "abc" (Some 2) None H1 H2)
    as (pairs & c & v & bytes & Hm & _ & _ & Hp & _ & Hb & Hd & _ & _ & _ & Hr).
  assert (Hbytes : bytes = [Int 171; Int 12]).
  { assert (E : Return bytes = Return [Int 171; Int 12])
      by (rewrite <- Hd; reflexivity).
    by injection E. }
  destruct Hr as (compressed & Hc & _ & Hh); [vm_compute; lia|].
  exists compressed. by rewrite <- Hbytes.
Defined.

(** * Further properties of [_compress] *)

Lemma compress_Return_inv bytes T checksums :
  _compress bytes T = Return checksums →
  1 ≤ T ≤ length bytes ∧ length checksums = T.
Proof.
  intros H.
  destruct (decide (length bytes < T)) as [Hlt|Hge].
  { unfold _compress in H. cbv zeta in H. by rewrite decide_True in H. }
  destruct T as [|T']; [by rewrite compress_zero in H|].
  split; [lia|].
  destruct (compress_returns_length bytes (S T')) as (cs & Hc & Hl); [lia|].
  same_return H Hc. done.
Qed.

(** X1.  The three outcomes of [_compress]: the "fewer input bytes" error
    exactly when the target exceeds the length, a [TypeError] exactly when
    the target is 0, and otherwise, exactly for [1 <= target <= length], an
    array of [target] checksums. *)
Theorem compress_outcomes (bytes : list number) (target : nat) :
  (_compress bytes target = Throw InsufficientInput ↔ length bytes < target) ∧
  (_compress bytes target = Throw TypeError ↔ target = 0) ∧
  ((∃ checksums, _compress bytes target = Return checksums) ↔
   1 ≤ target ≤ length bytes) ∧
  (∀ checksums, _compress bytes target = Return checksums →
     length checksums = target).
Proof.
  assert (Hthrow : length bytes < target →
            _compress bytes target = Throw InsufficientInput).
  { intros Hl. unfold _compress. cbv zeta. by rewrite decide_True. }
  assert (Hret : 1 ≤ target ≤ length bytes →
            ∃ checksums, _compress bytes target = Return checksums).
  { intros HT. destruct (compress_returns_length bytes target HT) as (cs & ? & _).
    by exists cs. }
  repeat split.
  - intros H. destruct (decide (length bytes < target)); [done|].
    destruct target as [|T']; [by rewrite compress_zero in H|].
    destruct Hret as [cs Hc]; [lia|]. rewrite Hc in H. discriminate.
  - done.
  - intros H. destruct target as [|T']; [done|].
    destruct (decide (length bytes < S T')) as [Hlt|Hge].
    + rewrite Hthrow in H by done. discriminate.
    + destruct Hret as [cs Hc]; [lia|]. rewrite Hc in H. discriminate.
  - intros ->. apply compress_zero.
  - destruct H as [cs Hc]. apply (compress_Return_inv _ _ _ Hc).
  - destruct H as [cs Hc]. apply (compress_Return_inv _ _ _ Hc).
  - done.
  - intros cs Hc. apply (compress_Return_inv _ _ _ Hc).
Qed.

(** With the target equal to the length every segment is one element. *)
Lemma compress_identity_nonempty (l : list number) :
  l ≠ [] → _compress l (length l) = Return l.
Proof.
  intros Hne.
  assert (HT : 1 ≤ length l ≤ length l) by (destruct l; [done | simpl; lia]).
  destruct (compress_returns l _ HT) as (segments & checksums & Hs & Hc & HF).
  destruct (segments_of_props _ _ HT)
    as (segs & Hsegs & Hlen & Hinit & [Hlast Hlastlen] & Hcat).
  same_return Hs Hsegs.
  rewrite Nat.div_same, Nat.Div0.mod_same in * by lia.
  rewrite Hc. f_equal. rewrite <- Hcat.
  assert (Hone : Forall (λ seg, length seg = 1) segments).
  { apply Forall_lookup_2. intros i seg Hi.
    pose proof (lookup_lt_Some _ _ _ Hi) as Hlt.
    destruct (decide (i < length l - 1)) as [Hlt'|Hge].
    - destruct (Hinit i Hlt') as [Hi' Hl]. rewrite Hi in Hi'.
      by injection Hi' as ->.
    - replace i with (length l - 1) in Hi by lia. rewrite Hi in Hlast.
      injection Hlast as ->. lia. }
  clear -HF Hone. induction HF as [|seg c segs cs Hx _ IH]; [done|].
  inversion Hone as [|?? H1 Hrest]; subst.
  destruct Hx as (first & rest & -> & ->).
  destruct rest; [|done]. simpl. f_equal. by apply IH.
Qed.

(** X2.  Compressing a result again to the same target changes nothing. *)
Theorem compress_idempotent (bytes : list number) (target : nat)
    (checksums : list number) :
  _compress bytes target = Return checksums →
  _compress checksums target = Return checksums.
Proof.
  intros H. destruct (compress_Return_inv _ _ _ H) as [HT Hl].
  rewrite <- Hl at 1. apply compress_identity_nonempty.
  destruct checksums; [simpl in Hl; lia | done].
Qed.

Lemma compress_idempotent_witness :
  _compress [Int 1; Int 2; Int 3; Int 4; Int 5] 2 = Return [Int 3; Int 2] ∧
  _compress [Int 3; Int 2] 2 = Return [Int 3; Int 2].
Proof.
  assert (H : _compress [Int 1; Int 2; Int 3; Int 4; Int 5] 2
              = Return [Int 3; Int 2]) by reflexivity.
  split; [exact H | exact (compress_idempotent _ _ _ H)].
Defined.

(** ** XOR on 32-bit integers *)

Lemma wrap32_range z : (- 2 ^ 31 ≤ wrap32 z < 2 ^ 31)%Z.
Proof.
  unfold wrap32. pose proof (Z.mod_pos_bound (z + 2 ^ 31) (2 ^ 32)). lia.
Qed.

Lemma wrap32_id z : (- 2 ^ 31 ≤ z < 2 ^ 31)%Z → wrap32 z = z.
Proof. intros H. unfold wrap32. rewrite Z.mod_small; lia. Qed.

Lemma ToInt32_range x : (- 2 ^ 31 ≤ ToInt32 x < 2 ^ 31)%Z.
Proof. destruct x; [apply wrap32_range | simpl; lia]. Qed.

Lemma lxor_nonneg_bound n a b :
  (0 ≤ n)%Z → (0 ≤ a < 2 ^ n)%Z → (0 ≤ b < 2 ^ n)%Z →
  (0 ≤ Z.lxor a b < 2 ^ n)%Z.
Proof.
  intros Hn Ha Hb.
  assert (H0 : (0 ≤ Z.lxor a b)%Z) by (apply Z.lxor_nonneg; lia).
  split; [done|].
  destruct (decide (Z.lxor a b = 0%Z)) as [->|Hz]; [lia|].
  apply Z.log2_lt_pow2; [lia|].
  assert (Hlog : ∀ z, (0 ≤ z < 2 ^ n)%Z → (z = 0 ∨ Z.log2 z < n)%Z).
  { intros z Hzr. destruct (decide (z = 0%Z)); [by left | right].
    apply Z.log2_lt_pow2; lia. }
  pose proof (Z.log2_lxor a b) as Hl.
  destruct (Hlog a Ha) as [->|Hla], (Hlog b Hb) as [->|Hlb].
  - by rewrite Z.lxor_0_l in Hz.
  - rewrite Z.lxor_0_l. done.
  - rewrite Z.lxor_0_r. done.
  - lia.
Qed.

Lemma lxor_int32 a b :
  (- 2 ^ 31 ≤ a < 2 ^ 31)%Z → (- 2 ^ 31 ≤ b < 2 ^ 31)%Z →
  (- 2 ^ 31 ≤ Z.lxor a b < 2 ^ 31)%Z.
Proof.
  intros Ha Hb.
  assert (Hnot : ∀ z, Z.lnot z = (- z - 1)%Z) by (intros; unfold Z.lnot; lia).
  destruct (decide (0 ≤ a)%Z) as [Ha0|Ha0], (decide (0 ≤ b)%Z) as [Hb0|Hb0].
  - pose proof (lxor_nonneg_bound 31 a b). lia.
  - pose proof (lxor_nonneg_bound 31 a (Z.lnot b)) as H.
    rewrite <- Z.lnot_lxor_r, !Hnot in H. lia.
  - pose proof (lxor_nonneg_bound 31 (Z.lnot a) b) as H.
    rewrite <- Z.lnot_lxor_l, !Hnot in H. lia.
  - pose proof (lxor_nonneg_bound 31 (Z.lnot a) (Z.lnot b)) as H.
    rewrite Z.lxor_lnot_lnot, !Hnot in H. lia.
Qed.

Lemma xor_int32 a b : is_int32 (xor a b).
Proof. apply lxor_int32; apply ToInt32_range. Qed.

Lemma xor_all_range l : (- 2 ^ 31 ≤ xor_all l < 2 ^ 31)%Z.
Proof.
  induction l as [|x l IH]; simpl; [lia|].
  apply lxor_int32; [apply ToInt32_range | done].
Qed.

(** The fold from an integer accumulator. *)
Lemma foldl_xor_Int z rest :
  (- 2 ^ 31 ≤ z < 2 ^ 31)%Z →
  foldl xor (Int z) rest = Int (Z.lxor z (xor_all rest)).
Proof.
  revert z. induction rest as [|x rest IH]; intros z Hz; simpl.
  - by rewrite Z.lxor_0_r.
  - unfold xor at 2. simpl ToInt32. rewrite (wrap32_id z) by done.
    rewrite IH by (apply lxor_int32; [done | apply ToInt32_range]).
    by rewrite Z.lxor_assoc.
Qed.

(** The fold of a segment of at least two elements. *)
Lemma foldl_xor_two a b rest :
  foldl xor a (b :: rest) = Int (xor_all (a :: b :: rest)).
Proof.
  simpl. unfold xor at 2.
  rewrite foldl_xor_Int by (apply lxor_int32; apply ToInt32_range).
  by rewrite Z.lxor_assoc.
Qed.

Lemma xor_all_Permutation l l' : l ≡ₚ l' → xor_all l = xor_all l'.
Proof.
  induction 1 as [|x l l' _ IH|x y l|l l' l'' _ IH1 _ IH2]; simpl.
  - done.
  - by rewrite IH.
  - rewrite <- !Z.lxor_assoc. f_equal. apply Z.lxor_comm.
  - by rewrite IH1.
Qed.

Lemma compress_to_one_lemma (first : number) (rest : list number) :
  _compress (first :: rest) 1 = Return [foldl xor first rest].
Proof.
  assert (HT : 1 ≤ 1 ≤ length (first :: rest)) by (simpl; lia).
  destruct (compress_returns _ _ HT) as (segments & checksums & Hs & Hc & HF).
  destruct (segments_of_props _ _ HT)
    as (segs & Hsegs & Hlen & _ & _ & Hcat).
  same_return Hs Hsegs. rewrite Hc. f_equal.
  destruct segments as [|seg [|? ?]]; try done.
  simpl in Hcat. rewrite app_nil_r in Hcat. subst seg.
  inversion HF as [|???? Hx HF']; subst. inversion HF'; subst.
  destruct Hx as (f & r & [= <- <-] & ->). done.
Qed.

(** X3.  With target 1 the single checksum is the XOR-fold of the whole
    input, whatever its length: the first element, then every other one
    XORed in; for two elements and more it is the XOR of the [ToInt32] of
    all of them. *)
Theorem compress_to_one (first : number) (rest : list number) :
  _compress (first :: rest) 1 = Return [foldl xor first rest] ∧
  (∀ second rest',
     _compress (first :: second :: rest') 1
     = Return [Int (xor_all (first :: second :: rest'))]).
Proof.
  split; [apply compress_to_one_lemma|].
  intros second rest'. by rewrite compress_to_one_lemma, foldl_xor_two.
Qed.

(** X4.  A checksum does not depend on the order of the bytes of its
    segment: [reduce] gives the same result on a segment and on any
    rearrangement of it, and so does [_compress] with target 1 on the whole
    input. *)
Theorem checksum_order_independent (seg seg' : list number) :
  seg ≡ₚ seg' →
  reduce_xor seg = reduce_xor seg' ∧ _compress seg 1 = _compress seg' 1.
Proof.
  intros HP.
  assert (Hr : reduce_xor seg = reduce_xor seg').
  { destruct seg as [|a [|b rest]].
    - by apply Permutation_nil in HP as ->.
    - by apply Permutation_singleton_l in HP as ->.
    - pose proof (Permutation_length HP) as Hl.
      destruct seg' as [|a' [|b' rest']]; try done.
      unfold reduce_xor. rewrite !foldl_xor_two. do 2 f_equal.
      by apply xor_all_Permutation. }
  split; [done|].
  destruct seg as [|a rest], seg' as [|a' rest'].
  - done.
  - by apply Permutation_nil in HP.
  - symmetry in HP. by apply Permutation_nil in HP.
  - rewrite !compress_to_one_lemma. simpl in Hr. by injection Hr as ->.
Qed.

Lemma checksum_order_independent_witness :
  [Int 1; NaN; Int 7] ≡ₚ [Int 7; Int 1; NaN] ∧
  reduce_xor [Int 1; NaN; Int 7] = reduce_xor [Int 7; Int 1; NaN] ∧
  _compress [Int 1; NaN; Int 7] 1 = _compress [Int 7; Int 1; NaN] 1.
Proof.
  assert (H : [Int 1; NaN; Int 7] ≡ₚ [Int 7; Int 1; NaN]).
  { change ([Int 1; NaN] ++ [Int 7] ≡ₚ [Int 7] ++ [Int 1; NaN]).
    apply Permutation_app_comm. }
  split; [exact H | exact (checksum_order_independent _ _ H)].
Defined.

Lemma reduce_xor_two a b rest :
  reduce_xor (a :: b :: rest) = Return (Int (xor_all (a :: b :: rest))) ∧
  is_int32 (Int (xor_all (a :: b :: rest))).
Proof.
  split; [unfold reduce_xor; by rewrite foldl_xor_two | apply xor_all_range].
Qed.

(** X5.  [NaN] does not spread through the XOR: the checksum of a segment
    is [NaN] only when the segment is the single element [NaN]; and when the
    input has at least twice as many elements as the target, every checksum
    is a 32-bit integer, whatever the elements are. *)
Theorem checksums_are_int32 (bytes : list number) (target : nat) :
  1 ≤ target →
  2 * target ≤ length bytes →
  (∀ seg, reduce_xor seg = Return NaN ↔ seg = [NaN]) ∧
  ∃ checksums,
    _compress bytes target = Return checksums ∧
    Forall is_int32 checksums.
Proof.
  intros H1 H2. split.
  - intros [|a [|b rest]]; split; try done.
    + by intros [= ->].
    + by intros [= ->].
    + intros H. destruct (reduce_xor_two a b rest) as [Hr _].
      rewrite Hr in H. discriminate.
  - assert (HT : 1 ≤ target ≤ length bytes) by lia.
    assert (Hs : 2 ≤ length bytes / target)
      by (apply Nat.div_le_lower_bound; lia).
    destruct (compress_returns bytes target HT)
      as (segments & checksums & Hseg & Hc & HF).
    destruct (segments_of_props bytes target HT)
      as (segs & Hsegs & Hlen & Hinit & [Hlast Hlastlen] & _).
    same_return Hseg Hsegs.
    exists checksums. split; [done|].
    assert (Hbig : Forall (λ seg, 2 ≤ length seg) segments).
    { apply Forall_lookup_2. intros i seg Hi.
      pose proof (lookup_lt_Some _ _ _ Hi) as Hlt.
      destruct (decide (i < target - 1)) as [Hlt'|Hge].
      - destruct (Hinit i Hlt') as [Hi' Hl]. rewrite Hi in Hi'.
        injection Hi' as ->. lia.
      - replace i with (target - 1) in Hi by lia. rewrite Hi in Hlast.
        injection Hlast as ->. lia. }
    clear -HF Hbig. induction HF as [|seg c segs cs Hx _ IH]; [constructor|].
    inversion Hbig as [|?? Hl Hrest]; subst.
    constructor; [|by apply IH].
    destruct Hx as (a & [|b rest] & -> & ->); [simpl in Hl; lia|].
    rewrite foldl_xor_two. apply xor_all_range.
Qed.

Lemma checksums_are_int32_witness :
  1 ≤ 2 ∧ 2 * 2 ≤ length [NaN; Int (-1); NaN; NaN] ∧
  ∃ checksums,
    _compress [NaN; Int (-1); NaN; NaN] 2 = Return checksums ∧
    Forall is_int32 checksums.
Proof.
  assert (H1 : 1 ≤ 2) by lia.
  assert (H2 : 2 * 2 ≤ length [NaN; Int (-1); NaN; NaN]) by (simpl; lia).
  split; [exact H1|]. split; [exact H2|].
  exact (proj2 (checksums_are_int32 _ 2 H1 H2)).
Defined.

(** * Further properties of the lookup and of [humanize] *)

(** X6.  For a hasher that was constructed, [this.wordlist[x]] is a word
    exactly when [x] is an integer from 0 to 255; for every other number
    ([NaN], a negative integer, 256 and more) it is [undefined], and the
    phrase has the empty string at that place. *)
Theorem lookup_defined_iff_byte (wl : option (list string))
    (this : HumanHasher) (x : number) (separator : string) :
  constructor wl = Return this →
  ((∃ word, get (wordlist this) x = Some word) ↔ is_byte x) ∧
  (¬ is_byte x →
   join [get (wordlist this) x] separator = EmptyString).
Proof.
  intros Hthis. destruct (constructor_Return _ _ Hthis) as [_ Hlen].
  assert (Hiff : (∃ word, get (wordlist this) x = Some word) ↔ is_byte x).
  { split.
    - intros [word Hw]. destruct x as [z|]; [|done]. simpl in *.
      destruct (decide (0 ≤ z)%Z); [|done].
      apply lookup_lt_Some in Hw. lia.
    - intros Hx. destruct (get_byte _ x Hlen Hx) as (w & Hw & _). eauto. }
  split; [done|].
  intros Hx. destruct (get (wordlist this) x) as [w|] eqn:Hg; [|done].
  exfalso. apply Hx, Hiff. eauto.
Qed.

Lemma lookup_defined_iff_byte_witness :
  constructor None = Return {| wordlist := DEFAULT_WORDLIST |} ∧
  ((∃ word, get DEFAULT_WORDLIST (Int 256) = Some word) ↔ is_byte (Int 256)) ∧
  (¬ is_byte (Int 256) → join [get DEFAULT_WORDLIST (Int 256)] "-" = EmptyString).
Proof.
  assert (H : constructor None = Return {| wordlist := DEFAULT_WORDLIST |})
    by reflexivity.
  split; [exact H|].
  exact (lookup_defined_iff_byte None _ (Int 256) "-" H).
Defined.

Lemma match_all_nil s : match_all s = [] ↔ all_line_terminators s = true.
Proof.
  induction s as [|c rest IH]; [done|]. simpl.
  destruct (is_line_terminator c); simpl; [done|].
  split; [|done]. destruct rest as [|c' rest']; [done|].
  by destruct (is_line_terminator c').
Qed.

Lemma match_pairs_None d :
  match_pairs d = None ↔ all_line_terminators d = true.
Proof.
  rewrite <- match_all_nil. unfold match_pairs.
  by destruct (match_all d).
Qed.

(** X7.  Which error [humanize] throws.  A [TypeError] exactly when the
    digest has no character but line terminators (the empty digest
    included), so that the pair pattern finds nothing, or when the word
    count is 0; the "fewer input bytes" error exactly when the pattern finds
    groups, fewer than the word count. *)
Theorem humanize_errors (this : HumanHasher) (d : string)
    (words : option nat) (separator : option string) :
  (humanize this d words separator = Throw TypeError ↔
   all_line_terminators d = true ∨ default 4 words = 0) ∧
  (humanize this d words separator = Throw InsufficientInput ↔
   all_line_terminators d = false ∧
   length (match_all d) < default 4 words) ∧
  humanize this EmptyString words separator = Throw TypeError.
Proof.
  pose proof (humanize_outcome this d words separator) as H.
  pose proof (match_pairs_None d) as HN.
  assert (Hm : ∀ pairs, match_pairs d = Some pairs → pairs = match_all d).
  { unfold match_pairs. intros pairs. destruct (match_all d); [done|].
    by intros [= <-]. }
  split; [|split; [|reflexivity]].
  - destruct (match_pairs d) as [pairs|] eqn:Hp.
    + assert (Hf : all_line_terminators d = false).
      { destruct (all_line_terminators d); [|done].
        discriminate (proj2 HN eq_refl). }
      destruct (decide (default 4 words = 0)) as [Hz|Hnz];
        [|destruct (decide (length pairs < default 4 words)) as [Hlt|Hge]].
      * rewrite H. split; [by right | done].
      * rewrite H. split; [done|]. intros [?|?]; congruence.
      * destruct H as (compressed & _ & _ & ->).
        split; [done|]. intros [?|?]; congruence.
    + rewrite H. split; [|done]. intros _. left. by apply HN.
  - destruct (match_pairs d) as [pairs|] eqn:Hp.
    + assert (Hf : all_line_terminators d = false).
      { destruct (all_line_terminators d); [|done].
        discriminate (proj2 HN eq_refl). }
      rewrite <- (Hm pairs eq_refl).
      destruct (decide (default 4 words = 0)) as [Hz|Hnz];
        [|destruct (decide (length pairs < default 4 words)) as [Hlt|Hge]].
      * rewrite H. split; [done|]. intros [_ ?]. lia.
      * rewrite H. done.
      * destruct H as (compressed & _ & _ & ->).
        split; [done|]. intros [_ ?]. lia.
    + rewrite H. split; [done|]. intros [Hf _].
      rewrite (proj1 HN eq_refl) in Hf. done.
Qed.

(** X8.  With as many words as the digest has bytes, the phrase has one
    word per group of the digest, in order: the word at the index that the
    group parses to. *)
Theorem humanize_word_per_byte (wl : option (list string))
    (this : HumanHasher) (d : string) (separator : string) :
  constructor wl = Return this →
  d ≠ EmptyString →
  all_hex d = true →
  ∃ words,
    Forall2 (λ pair word, get (wordlist this) (parseInt pair 16) = Some word)
      (match_all d) words ∧
    humanize this d (Some ((String.length d + 1) / 2)) (Some separator)
      = Return (String.concat separator words).
Proof.
  intros Hthis Hne Hh.
  destruct (constructor_Return _ _ Hthis) as [_ Hlen].
  destruct (digest_bytes_hex d Hne Hh) as (Hd & Hbl & Hb).
  set (bytes := (λ x, parseInt x 16) <$> match_all d) in *.
  destruct (get_bytes (wordlist this) bytes Hlen Hb) as (words & _ & HF).
  exists words. split.
  - unfold bytes in HF. apply Forall2_fmap_l in HF.
    eapply Forall2_impl; [exact HF|]. by intros ?? [? _].
  - rewrite (humanize_bytes _ _ _ _ _ Hd). cbv [default].
    rewrite <- Hbl, compress_identity_nonempty.
    + cbn. f_equal. apply join_words.
      eapply Forall2_impl; [exact HF|]. by intros ?? [? _].
    + intros E. rewrite E in Hbl.
      destruct d as [|c1 [|c2 s]]; [done|done|].
      cbn [String.length] in Hbl. rewrite half_up_step in Hbl. done.
Qed.

Lemma humanize_word_per_byte_witness :
  constructor None = Return {| wordlist := DEFAULT_WORDLIST |} ∧
  "1A2B3" ≠ EmptyString ∧
  all_hex "1A2B3" = true ∧
  ∃ words,
    Forall2 (λ pair word, get DEFAULT_WORDLIST (parseInt pair 16) = Some word)
      (match_all "1A2B3") words ∧
    humanize {| wordlist := DEFAULT_WORDLIST |} "1A2B3"
      (Some ((String.length "1A2B3" + 1) / 2)) (Some "-")
      = Return (String.concat "-" words).
Proof.
  assert (H1 : constructor None = Return {| wordlist := DEFAULT_WORDLIST |})
    by reflexivity.
  assert (H2 : "1A2B3" ≠ EmptyString) by discriminate.
  assert (H3 : all_hex "1A2B3" = true) by reflexivity.
  split; [exact H1|]. split; [exact H2|]. split; [exact H3|].
  exact (humanize_word_per_byte None _ "1A2B3" "-" H1 H2 H3).
Defined.

(** ** Letter case *)

Lemma lower_hex c : is_hex_char c = true → is_hex_char (lower c) = true.
Proof. revert c. apply forall_hex. vm_compute. reflexivity. Qed.

Lemma parseInt_lower1 c :
  is_hex_char c = true →
  parseInt (String (lower c) EmptyString) 16 = parseInt (String c EmptyString) 16.
Proof.
  assert (H : ∀ c, is_hex_char c = true →
    bool_decide (parseInt (String (lower c) EmptyString) 16
                 = parseInt (String c EmptyString) 16) = true)
    by (apply forall_hex; vm_compute; reflexivity).
  intros Hc. exact (bool_decide_eq_true_1 _ (H c Hc)).
Qed.

Lemma parseInt_lower2 c1 c2 :
  is_hex_char c1 = true → is_hex_char c2 = true →
  parseInt (String (lower c1) (String (lower c2) EmptyString)) 16
  = parseInt (String c1 (String c2 EmptyString)) 16.
Proof.
  assert (H : ∀ c1 c2, is_hex_char c1 = true → is_hex_char c2 = true →
    bool_decide
      (parseInt (String (lower c1) (String (lower c2) EmptyString)) 16
       = parseInt (String c1 (String c2 EmptyString)) 16) = true)
    by (apply forall_hex2; vm_compute; reflexivity).
  intros H1 H2. exact (bool_decide_eq_true_1 _ (H c1 c2 H1 H2)).
Qed.

Lemma lower_string_hex d : all_hex d = true → all_hex (lower_string d) = true.
Proof.
  induction d as [|c d IH]; [done|]. simpl.
  intros [Hc Hd]%andb_true_iff. by rewrite lower_hex, IH.
Qed.

Lemma match_all_lower d :
  all_hex d = true →
  (λ x, parseInt x 16) <$> match_all (lower_string d)
  = (λ x, parseInt x 16) <$> match_all d.
Proof.
  revert d. apply hex_pairs_ind.
  - done.
  - intros c Hc. cbn [lower_string].
    rewrite !match_all_hex1 by (done || by apply lower_hex).
    by rewrite !fmap_cons, parseInt_lower1.
  - intros c1 c2 s H1 H2 _ IH. cbn [lower_string].
    rewrite !match_all_hex2 by (done || by apply lower_hex).
    by rewrite !fmap_cons, parseInt_lower2, IH.
Qed.

Lemma digest_bytes_lower d :
  all_hex d = true → digest_bytes (lower_string d) = digest_bytes d.
Proof.
  intros Hh. destruct d as [|c d']; [done|].
  unfold digest_bytes.
  rewrite !match_pairs_nonempty by (done || by apply lower_string_hex).
  by rewrite match_all_lower.
Qed.

Lemma humanize_same_bytes this d1 d2 words separator :
  digest_bytes d1 = digest_bytes d2 →
  humanize this d1 words separator = humanize this d2 words separator.
Proof. intros H. unfold humanize. cbv zeta. by rewrite H. Qed.

(** X9.  The case of the hexadecimal letters does not matter: two digests
    of hexadecimal characters that differ only in letter case give the same
    bytes and the same outcome of [humanize]. *)
Theorem humanize_case_insensitive (this : HumanHasher) (d1 d2 : string)
    (words : option nat) (separator : option string) :
  all_hex d1 = true →
  all_hex d2 = true →
  lower_string d1 = lower_string d2 →
  digest_bytes d1 = digest_bytes d2 ∧
  humanize this d1 words separator = humanize this d2 words separator.
Proof.
  intros H1 H2 Hl.
  assert (Hb : digest_bytes d1 = digest_bytes d2).
  { by rewrite <- (digest_bytes_lower d1), <- (digest_bytes_lower d2), Hl. }
  split; [done | by apply humanize_same_bytes].
Qed.

Lemma humanize_case_insensitive_witness :
  all_hex "1A2b3C4d" = true ∧
  all_hex "1a2B3c4D" = true ∧
  lower_string "1A2b3C4d" = lower_string "1a2B3c4D" ∧
  digest_bytes "1A2b3C4d" = digest_bytes "1a2B3c4D" ∧
  humanize {| wordlist := DEFAULT_WORDLIST |} "1A2b3C4d" None None
  = humanize {| wordlist := DEFAULT_WORDLIST |} "1a2B3c4D" None None.
Proof.
  assert (H1 : all_hex "1A2b3C4d" = true) by reflexivity.
  assert (H2 : all_hex "1a2B3c4D" = true) by reflexivity.
  assert (H3 : lower_string "1A2b3C4d" = lower_string "1a2B3c4D")
    by reflexivity.
  split; [exact H1|]. split; [exact H2|]. split; [exact H3|].
  exact (humanize_case_insensitive _ _ _ None None H1 H2 H3).
Defined.

(** ** Reading the checksums back from a phrase *)

Lemma append_empty_r (s : string) : s +:+ EmptyString = s.
Proof.
  induction s as [|c s IH]; [done|].
  change (String c (s +:+ EmptyString) = String c s). by f_equal.
Qed.

Lemma concat_dash_cons (w : string) (ws : list string) :
  String.concat "-" (w :: ws)
  = w +:+ match ws with
          | [] => EmptyString
          | _ => String "-" (String.concat "-" ws)
          end.
Proof. destruct ws; [by rewrite append_empty_r | reflexivity]. Qed.

(** A dash-free word followed by nothing or by a dash is read back in one
    way only. *)
Lemma dash_free_prefix_unique (w : string) : ∀ w' t t',
  dash_free w = true → dash_free w' = true →
  (t = EmptyString ∨ ∃ r, t = String "-" r) →
  (t' = EmptyString ∨ ∃ r, t' = String "-" r) →
  w +:+ t = w' +:+ t' → w = w' ∧ t = t'.
Proof.
  induction w as [|c w IH]; intros [|c' w'] t t' Hw Hw' Ht Ht' E.
  - done.
  - change (t = String c' (w' +:+ t')) in E. exfalso.
    destruct Ht as [->|[r ->]]; [done|]. injection E as <- _. done.
  - change (String c (w +:+ t) = t') in E. exfalso.
    destruct Ht' as [->|[r ->]]; [done|]. injection E as -> _. done.
  - change (String c (w +:+ t) = String c' (w' +:+ t')) in E.
    injection E as -> E. simpl in Hw, Hw'.
    apply andb_true_iff in Hw as [_ Hw]. apply andb_true_iff in Hw' as [_ Hw'].
    destruct (IH w' t t' Hw Hw' Ht Ht' E) as [-> ->]. done.
Qed.

Lemma concat_dash_inj (ws : list string) : ∀ ws',
  Forall (λ w, plain_word w = true) ws →
  Forall (λ w, plain_word w = true) ws' →
  String.concat "-" ws = String.concat "-" ws' → ws = ws'.
Proof.
  assert (Hne : ∀ w t, plain_word w = true → w +:+ t ≠ EmptyString).
  { intros [|c w] t Hw; [done|]. discriminate. }
  assert (Htail : ∀ l : list string,
            match l with
            | [] => EmptyString
            | _ => String "-" (String.concat "-" l)
            end = EmptyString
            ∨ ∃ r, match l with
                   | [] => EmptyString
                   | _ => String "-" (String.concat "-" l)
                   end = String "-" r).
  { intros [|? ?]; [by left | right; by eexists]. }
  induction ws as [|w ws IH]; intros [|w' ws'] Hws Hws' E.
  - done.
  - rewrite concat_dash_cons in E. inversion Hws'; subst.
    exfalso. symmetry in E. by eapply Hne.
  - rewrite concat_dash_cons in E. inversion Hws; subst.
    exfalso. by eapply Hne.
  - inversion Hws as [|?? Hw Hrest]; inversion Hws' as [|?? Hw' Hrest']; subst.
    rewrite !concat_dash_cons in E.
    apply andb_true_iff in Hw as [_ Hw]. apply andb_true_iff in Hw' as [_ Hw'].
    destruct (dash_free_prefix_unique w w' _ _ Hw Hw' (Htail ws) (Htail ws') E)
      as [-> Et].
    f_equal. apply IH; [done|done|].
    destruct ws as [|x xs], ws' as [|x' xs']; try done.
    by injection Et.
Qed.

Lemma get_inj (wl : list string) x y w :
  NoDup wl → is_byte x → is_byte y →
  get wl x = Some w → get wl y = Some w → x = y.
Proof.
  intros Hnd Hx Hy Hgx Hgy.
  destruct x as [zx|], y as [zy|]; try done. simpl in *.
  rewrite decide_True in Hgx by lia. rewrite decide_True in Hgy by lia.
  pose proof (NoDup_lookup _ _ _ _ Hnd Hgx Hgy). f_equal. lia.
Qed.

(** X10.  When the words of the list are pairwise distinct, not empty and
    free of "-", as those of the default list are, the phrase made with the
    separator "-" determines the checksum bytes: two sequences of bytes with
    the same phrase are equal. *)
Theorem phrase_determines_checksums (wl : option (list string))
    (this : HumanHasher) (xs ys : list number) :
  constructor wl = Return this →
  NoDup (wordlist this) →
  forallb plain_word (wordlist this) = true →
  Forall is_byte xs →
  Forall is_byte ys →
  join ((λ x, get (wordlist this) x) <$> xs) "-"
  = join ((λ x, get (wordlist this) x) <$> ys) "-" →
  xs = ys.
Proof.
  intros Hthis Hnd Hplain Hxs Hys E.
  destruct (constructor_Return _ _ Hthis) as [_ Hlen].
  destruct (get_bytes _ xs Hlen Hxs) as (wsx & _ & HFx).
  destruct (get_bytes _ ys Hlen Hys) as (wsy & _ & HFy).
  assert (Hp : ∀ w, w ∈ wordlist this → plain_word w = true).
  { intros w Hw. rewrite forallb_forall in Hplain.
    by apply Hplain, list_elem_of_In. }
  rewrite (join_words _ xs wsx), (join_words _ ys wsy) in E;
    try (eapply Forall2_impl; [eassumption|]; by intros ?? [? _]).
  apply concat_dash_inj in E.
  - subst wsy. clear -HFx HFy Hxs Hys Hnd.
    revert ys Hys HFy.
    induction HFx as [|x w xs ws [Hx _] _ IH]; intros ys Hys HFy.
    + by inversion HFy.
    + inversion HFy as [|y ? ys' ? [Hy _] HF']; subst.
      inversion Hxs; inversion Hys; subst.
      f_equal; [by eapply get_inj | by apply IH].
  - clear -HFx Hp. induction HFx as [|???? [_ ?]]; constructor; auto.
  - clear -HFy Hp. induction HFy as [|???? [_ ?]]; constructor; auto.
Qed.

Lemma phrase_determines_checksums_witness :
  constructor None = Return {| wordlist := DEFAULT_WORDLIST |} ∧
  NoDup DEFAULT_WORDLIST ∧
  forallb plain_word DEFAULT_WORDLIST = true ∧
  Forall is_byte [Int 26; Int 43] ∧
  join ((λ x, get DEFAULT_WORDLIST x) <$> [Int 26; Int 43]) "-"
  = join ((λ x, get DEFAULT_WORDLIST x) <$> [Int 26; Int 43]) "-" ∧
  [Int 26; Int 43] = [Int 26; Int 43].
Proof.
  assert (H1 : constructor None = Return {| wordlist := DEFAULT_WORDLIST |})
    by reflexivity.
  assert (H2 : NoDup DEFAULT_WORDLIST)
    by (apply (bool_decide_eq_true_1 _); vm_compute; reflexivity).
  assert (H3 : forallb plain_word DEFAULT_WORDLIST = true)
    by (vm_compute; reflexivity).
  assert (H4 : Forall is_byte [Int 26; Int 43])
    by (repeat constructor; simpl; lia).
  assert (H5 : join ((λ x, get DEFAULT_WORDLIST x) <$> [Int 26; Int 43]) "-"
               = join ((λ x, get DEFAULT_WORDLIST x) <$> [Int 26; Int 43]) "-")
    by reflexivity.
  split; [exact H1|]. split; [exact H2|]. split; [exact H3|].
  split; [exact H4|]. split; [exact H5|].
  exact (phrase_determines_checksums None _ _ _ H1 H2 H3 H4 H4 H5).
Defined.

(** * Properties of [uuid] *)

Lemma hex_not_dash c : is_hex_char c = true → bool_decide (code c = 45) = false.
Proof.
  intros Hc. apply negb_true_iff. revert c Hc.
  apply forall_hex. vm_compute. reflexivity.
Qed.

(** What is left of a string that follows a pattern once the dashes are
    removed: its hexadecimal characters. *)
Lemma follows_remove_dashes pattern : ∀ s,
  follows pattern s = true →
  all_hex (remove_dashes s) = true ∧
  String.length (remove_dashes s) = length (List.filter negb pattern).
Proof.
  induction pattern as [|dash pattern IH]; intros [|c s] H; try done.
  simpl in H. apply andb_true_iff in H as [Hc Hs].
  destruct (IH s Hs) as [IHh IHl]. destruct dash; simpl.
  - by rewrite Hc.
  - rewrite (hex_not_dash c Hc). simpl. by rewrite Hc, IHh, IHl.
Qed.

Lemma uuid_humanize uuidv1 uuidv4 this words seperator version :
  uuid uuidv1 uuidv4 this words seperator version =
  humanhash ←
    humanize this
      (remove_dashes (if decide (default 4 version = 4) then uuidv4 else uuidv1))
      (Some (default 4 words)) (Some (default "-" seperator));
  mret {| Result.humanhash := humanhash;
          Result.uuid :=
            remove_dashes
              (if decide (default 4 version = 4) then uuidv4 else uuidv1) |}.
Proof. reflexivity. Qed.

(** X11.  When the function of the package that [version] selects ([v4]
    for version 4, [v1] for any other) returns a UUID in its textual form,
    [uuid] strips it to 32 hexadecimal characters, that is 16 bytes: with a
    word count from 1 to 16 it returns the stripped UUID together with a
    phrase of exactly that many words of the list; with a word count above
    16 it throws the "fewer input bytes" error, and with 0 a [TypeError]. *)
Theorem uuid_of_canonical (uuidv1 uuidv4 : string)
    (wl : option (list string)) (this : HumanHasher)
    (words : option nat) (seperator : option string) (version : option nat) :
  constructor wl = Return this →
  is_canonical_uuid
    (if decide (default 4 version = 4) then uuidv4 else uuidv1) = true →
  all_hex (remove_dashes
             (if decide (default 4 version = 4) then uuidv4 else uuidv1))
    = true ∧
  String.length
    (remove_dashes (if decide (default 4 version = 4) then uuidv4 else uuidv1))
    = 32 ∧
  if decide (default 4 words = 0)
  then uuid uuidv1 uuidv4 this words seperator version = Throw TypeError
  else if decide (16 < default 4 words)
  then uuid uuidv1 uuidv4 this words seperator version
       = Throw InsufficientInput
  else ∃ ws,
    length ws = default 4 words ∧
    Forall (λ w, w ∈ wordlist this) ws ∧
    uuid uuidv1 uuidv4 this words seperator version
    = Return {| Result.humanhash :=
                  String.concat (default "-" seperator) ws;
                Result.uuid :=
                  remove_dashes
                    (if decide (default 4 version = 4) then uuidv4
                     else uuidv1) |}.
Proof.
  intros Hthis Hcan. rewrite uuid_humanize.
  set (g := if decide (default 4 version = 4) then uuidv4 else uuidv1) in *.
  destruct (follows_remove_dashes _ _ Hcan) as [Hh Hl].
  change (length (List.filter negb uuid_pattern)) with 32 in Hl.
  split; [done|]. split; [done|].
  assert (Hne : remove_dashes g ≠ EmptyString)
    by (intros E; by rewrite E in Hl).
  destruct (constructor_Return _ _ Hthis) as [_ Hlen].
  destruct (digest_bytes_hex _ Hne Hh) as (Hd & Hbl & Hb).
  rewrite Hl in Hbl. change ((32 + 1) / 2) with 16 in Hbl.
  destruct (decide (default 4 words = 0)) as [Hz|Hnz];
    [|destruct (decide (16 < default 4 words)) as [Hgt|Hle]].
  - rewrite (humanize_bytes _ _ _ _ _ Hd).
    change (default 4 (Some (default 4 words))) with (default 4 words).
    by rewrite Hz, compress_zero.
  - rewrite (humanize_bytes _ _ _ _ _ Hd).
    change (default 4 (Some (default 4 words))) with (default 4 words).
    unfold _compress. cbv zeta. by rewrite Hbl, decide_True.
  - destruct (humanize_phrase this (remove_dashes g)
                (Some (default 4 words)) (Some (default "-" seperator)) _
                Hlen Hd Hb) as (compressed & ws & _ & Hlw & HF & Hhum);
      [simpl default; lia|].
    exists ws. split; [done|]. split.
    + clear -HF. induction HF as [|???? [_ ?]]; by constructor.
    + by rewrite Hhum.
Qed.

Lemma uuid_of_canonical_witness :
  constructor None = Return {| wordlist := DEFAULT_WORDLIST |} ∧
  is_canonical_uuid "f47ac10b-58cc-4372-a567-0e02b2c3d479" = true ∧
  ∃ ws,
    length ws = 4 ∧
    uuid "6ba7b810-9dad-11d1-80b4-00c04fd430c8"
      "f47ac10b-58cc-4372-a567-0e02b2c3d479"
      {| wordlist := DEFAULT_WORDLIST |} None None None
    = Return {| Result.humanhash := String.concat "-" ws;
                Result.uuid := "f47ac10b58cc4372a5670e02b2c3d479" |}.
Proof.
  assert (H1 : constructor None = Return {| wordlist := DEFAULT_WORDLIST |})
    by reflexivity.
  assert (H2 : is_canonical_uuid
                 (if decide (default 4 (@None nat) = 4)
                  then "f47ac10b-58cc-4372-a567-0e02b2c3d479"
                  else "6ba7b810-9dad-11d1-80b4-00c04fd430c8") = true)
    by reflexivity.
  split; [exact H1|]. split; [exact H2|].
  pose proof (uuid_of_canonical "6ba7b810-9dad-11d1-80b4-00c04fd430c8"
                "f47ac10b-58cc-4372-a567-0e02b2c3d479" None _ None None None
                H1 H2) as (_ & _ & H).
  destruct H as (ws & Hl & _ & Hu). exists ws. split; [exact Hl|].
  etransitivity; [exact Hu|]. vm_compute. reflexivity.
Defined.

(** * One byte, one checksum *)

Lemma slice_insert_outside (l : list number) i b a n :
  i < a ∨ a + n ≤ i →
  take n (drop a (<[i:=b]> l)) = take n (drop a l).
Proof.
  intros [Hlt|Hge].
  - by rewrite drop_insert_lt.
  - rewrite drop_insert_ge by lia. apply take_insert_ge. lia.
Qed.

Lemma xor_fold_of_functional seg c c' :
  xor_fold_of seg c → xor_fold_of seg c' → c = c'.
Proof. intros (f & r & -> & ->) (f' & r' & [= <- <-] & ->). done. Qed.

(** X13.  Changing one byte of the input changes at most one checksum: the
    one of the segment the byte lies in, segment [i / (N / T)], or the last
    one when that is beyond it.  Every other checksum stays as it was. *)
Theorem compress_change_is_local (bytes : list number) (T i : nat)
    (b : number) :
  1 ≤ T ≤ length bytes →
  i < length bytes →
  ∃ checksums checksums',
    _compress bytes T = Return checksums ∧
    _compress (<[i:=b]> bytes) T = Return checksums' ∧
    ∀ j, j ≠ Nat.min (i / (length bytes / T)) (T - 1) →
         checksums !! j = checksums' !! j.
Proof.
  intros HT Hi.
  assert (HT' : 1 ≤ T ≤ length (<[i:=b]> bytes)) by (by rewrite length_insert).
  destruct (seg_size_pos _ _ HT) as [Hs Hle].
  destruct (compress_returns _ _ HT) as (segs & cs & Hsg & Hc & HF).
  destruct (compress_returns _ _ HT') as (segs' & cs' & Hsg' & Hc' & HF').
  destruct (segments_of_props _ _ HT)
    as (sg & Hsg2 & Hlen & Hinit & [Hlast _] & _).
  destruct (segments_of_props _ _ HT')
    as (sg' & Hsg2' & Hlen' & Hinit' & [Hlast' _] & _).
  same_return Hsg Hsg2. same_return Hsg' Hsg2'.
  rewrite length_insert in Hinit', Hlast'.
  set (s := length bytes / T) in *.
  exists cs, cs'. split; [done|]. split; [done|].
  intros j Hj.
  pose proof (Forall2_length _ _ _ HF) as Hl.
  pose proof (Forall2_length _ _ _ HF') as Hl'.
  destruct (decide (j < T)) as [HjT|HjT].
  2: { rewrite !lookup_ge_None_2 by lia. done. }
  pose proof (Nat.div_mod_eq i s) as Hdm.
  pose proof (Nat.mod_upper_bound i s ltac:(lia)) as Hmod.
  assert (Hseg : segs !! j = segs' !! j).
  { destruct (decide (j < T - 1)) as [Hjl|Hjl].
    - destruct (Hinit j Hjl) as [-> _]. destruct (Hinit' j Hjl) as [-> _].
      f_equal. unfold slice. symmetry. apply slice_insert_outside. nia.
    - replace j with (T - 1) in * by lia.
      rewrite Hlast, Hlast'. f_equal. unfold slice_from. symmetry.
      apply drop_insert_lt. nia. }
  destruct (lookup_lt_is_Some_2 segs j) as [seg Hseg1]; [lia|].
  destruct (Forall2_lookup_l _ _ _ _ _ HF Hseg1) as (c & Hcj & Hx).
  rewrite Hseg in Hseg1.
  destruct (Forall2_lookup_l _ _ _ _ _ HF' Hseg1) as (c' & Hcj' & Hx').
  rewrite Hcj, Hcj'. f_equal. by eapply xor_fold_of_functional.
Qed.

Lemma compress_change_is_local_witness :
  1 ≤ 2 ≤ length [Int 1; Int 2; Int 3; Int 4; Int 5] ∧
  3 < length [Int 1; Int 2; Int 3; Int 4; Int 5] ∧
  ∃ checksums checksums',
    _compress [Int 1; Int 2; Int 3; Int 4; Int 5] 2 = Return checksums ∧
    _compress (<[3:=Int 200]> [Int 1; Int 2; Int 3; Int 4; Int 5]) 2
      = Return checksums' ∧
    checksums !! 0 = checksums' !! 0.
Proof.
  assert (H1 : 1 ≤ 2 ≤ length [Int 1; Int 2; Int 3; Int 4; Int 5])
    by (simpl; lia).
  assert (H2 : 3 < length [Int 1; Int 2; Int 3; Int 4; Int 5])
    by (simpl; lia).
  split; [exact H1|]. split; [exact H2|].
  destruct (compress_change_is_local _ 2 3 (Int 200) H1 H2)
    as (cs & cs' & Hc & Hc' & H).
  exists cs, cs'. split; [exact Hc|]. split; [exact Hc'|].
  apply H. vm_compute. lia.
Defined.

(** * Two calls on the store *)

Lemma bind_Return {A B} (m : Store.M A) (f : A → Store.M B) σ a σ' :
  m σ = (Return a, σ') → (m ≫= f) σ = f a σ'.
Proof. intros H. unfold mbind, Store.M_bind. by rewrite H. Qed.

Lemma bind_Throw {A B} (m : Store.M A) (f : A → Store.M B) σ e σ' :
  m σ = (Throw e, σ') → (m ≫= f) σ = (Throw e, σ').
Proof. intros H. unfold mbind, Store.M_bind. by rewrite H. Qed.

Lemma read_numbers_run σ l b :
  Store.arrays σ !! l = Some (Store.Numbers b) →
  Store.read_numbers l σ = (Return b, σ).
Proof.
  intros H. unfold Store.read_numbers, Store.read, mbind, Store.M_bind.
  by rewrite H.
Qed.

Lemma read_strings_run σ l b :
  Store.arrays σ !! l = Some (Store.Strings b) →
  Store.read_strings l σ = (Return b, σ).
Proof.
  intros H. unfold Store.read_strings, Store.read, mbind, Store.M_bind.
  by rewrite H.
Qed.

Lemma read_words_run σ l b :
  Store.arrays σ !! l = Some (Store.Words b) →
  Store.read_words l σ = (Return b, σ).
Proof.
  intros H. unfold Store.read_words, Store.read, mbind, Store.M_bind.
  by rewrite H.
Qed.

Lemma read_arrays_run σ l b :
  Store.arrays σ !! l = Some (Store.Arrays b) →
  Store.read_arrays l σ = (Return b, σ).
Proof.
  intros H. unfold Store.read_arrays, Store.read, mbind, Store.M_bind.
  by rewrite H.
Qed.

(** ** Stores that only grow *)

Lemma extends_refl σ : Store.extends σ σ.
Proof. split; [done | by apply take_ge]. Qed.

Lemma extends_length σ σ' :
  Store.extends σ σ' → length (Store.arrays σ) ≤ length (Store.arrays σ').
Proof.
  intros [_ H]. apply (f_equal length) in H. rewrite length_take in H. lia.
Qed.

Lemma extends_trans σ1 σ2 σ3 :
  Store.extends σ1 σ2 → Store.extends σ2 σ3 → Store.extends σ1 σ3.
Proof.
  intros H12 H23. pose proof (extends_length _ _ H12) as Hl.
  destruct H12 as [Ho12 Ht12], H23 as [Ho23 Ht23].
  split; [congruence|].
  rewrite <- Ht23 in Ht12. rewrite take_take in Ht12.
  by replace (length (Store.arrays σ1) `min` length (Store.arrays σ2))
    with (length (Store.arrays σ1)) in Ht12 by lia.
Qed.

Lemma extends_lookup σ σ' l a :
  Store.extends σ σ' →
  Store.arrays σ !! l = Some a → Store.arrays σ' !! l = Some a.
Proof.
  intros [_ Ht] Hl. rewrite <- Ht in Hl.
  by apply lookup_take_Some in Hl as [? _].
Qed.

Lemma extends_alloc σ a :
  Store.extends σ
    {| Store.arrays := Store.arrays σ ++ [a];
       Store.objects := Store.objects σ |}.
Proof. split; [done | apply take_app_length]. Qed.

Lemma extends_write σ0 σ l a :
  Store.extends σ0 σ → length (Store.arrays σ0) ≤ l →
  Store.extends σ0
    {| Store.arrays := <[l:=a]> (Store.arrays σ);
       Store.objects := Store.objects σ |}.
Proof.
  intros [Ho Ht] Hl. split; [done|]. simpl.
  by rewrite take_insert_ge.
Qed.

(** ** The loop fills [segments] with new arrays only *)

Lemma st_split_loop_step bytes s t i segments σ :
  Store.split_loop bytes s t i segments σ =
  if decide (i < s * t)
  then match Store.push_slice bytes i s segments σ with
       | (Return _, σ') => Store.split_loop bytes s t (i + s) segments σ'
       | (Throw e, σ') => (Throw e, σ')
       end
  else (Return (), σ).
Proof.
  rewrite Store.split_loop_equation_1. destruct (decide _); [|done].
  simpl. by destruct (Store.push_slice bytes i s segments σ) as [[[]|e] σ'].
Qed.

Lemma st_push_slice σ0 σ bytes b i s locs segs :
  Store.extends σ0 σ →
  Store.arrays σ0 !! bytes = Some (Store.Numbers b) →
  Store.arrays σ !! length (Store.arrays σ0) = Some (Store.Arrays locs) →
  Store.resolves σ (length (Store.arrays σ0)) locs segs →
  ∃ σ',
    Store.push_slice bytes i s (length (Store.arrays σ0)) σ = (Return (), σ') ∧
    Store.extends σ0 σ' ∧
    Store.arrays σ' !! length (Store.arrays σ0)
      = Some (Store.Arrays (locs ++ [length (Store.arrays σ)])) ∧
    Store.resolves σ' (length (Store.arrays σ0))
      (locs ++ [length (Store.arrays σ)]) (segs ++ [slice b i (i + s)]).
Proof.
  intros Hext Hb Hseg Hres.
  set (n0 := length (Store.arrays σ0)) in *.
  pose proof (lookup_lt_Some _ _ _ Hseg) as Hn0.
  set (σa := {| Store.arrays := Store.arrays σ
                                ++ [Store.Numbers (slice b i (i + s))];
                Store.objects := Store.objects σ |}).
  eexists. split; [|split; [|split]].
  - unfold Store.push_slice.
    rewrite (bind_Return _ _ _ _ _
               (read_numbers_run _ _ _ (extends_lookup _ _ _ _ Hext Hb))).
    rewrite (bind_Return _ _ σ (length (Store.arrays σ)) σa eq_refl).
    rewrite (bind_Return _ _ σa locs σa).
    + reflexivity.
    + apply read_arrays_run. simpl. by rewrite lookup_app_l.
  - apply extends_write; [|done].
    eapply extends_trans; [exact Hext | apply extends_alloc].
  - simpl. apply list_lookup_insert_eq. rewrite length_app. simpl. lia.
  - unfold Store.resolves in *. simpl. apply Forall2_app.
    + eapply Forall2_impl; [exact Hres|]. intros l a [Hl Ha].
      split; [done|]. rewrite list_lookup_insert_ne by lia.
      pose proof (lookup_lt_Some _ _ _ Ha). by rewrite lookup_app_l.
    + constructor; [|constructor]. split; [done|].
      rewrite list_lookup_insert_ne by lia.
      rewrite lookup_app_r by lia. by rewrite Nat.sub_diag.
Qed.

Lemma st_split_loop σ0 bytes b s t : ∀ m i σ locs segs,
  s * t - i ≤ m →
  Store.extends σ0 σ →
  Store.arrays σ0 !! bytes = Some (Store.Numbers b) →
  Store.arrays σ !! length (Store.arrays σ0) = Some (Store.Arrays locs) →
  Store.resolves σ (length (Store.arrays σ0)) locs segs →
  ∃ σ' locs',
    Store.split_loop bytes s t i (length (Store.arrays σ0)) σ
      = (Return (), σ') ∧
    Store.extends σ0 σ' ∧
    Store.arrays σ' !! length (Store.arrays σ0) = Some (Store.Arrays locs') ∧
    Store.resolves σ' (length (Store.arrays σ0)) locs'
      (split_loop b s t i segs).
Proof.
  induction m as [|m IH]; intros i σ locs segs Hm Hext Hb Hseg Hres;
    rewrite st_split_loop_step, split_loop_step.
  - rewrite !decide_False by lia. by exists σ, locs.
  - destruct (decide (i < s * t)) as [Hlt|Hge]; [|by exists σ, locs].
    destruct (st_push_slice σ0 σ bytes b i s locs segs Hext Hb Hseg Hres)
      as (σ1 & -> & Hext1 & Hseg1 & Hres1).
    eapply IH; [nia | done..].
Qed.

Lemma st_mapM_reduce σ n0 locs segs :
  Store.resolves σ n0 locs segs →
  mapM (λ x, s ← Store.read_numbers x; Store.lift (reduce_xor s)) locs σ
  = (mapM reduce_xor segs, σ).
Proof.
  induction 1 as [|l a locs segs [_ Hl] _ IH]; [done|].
  cbn [mapM].
  assert (Hf : (s ← Store.read_numbers l; Store.lift (reduce_xor s)) σ
               = (reduce_xor a, σ))
    by (by rewrite (bind_Return _ _ _ _ _ (read_numbers_run _ _ _ Hl))).
  destruct (reduce_xor a) as [c|e].
  - rewrite (bind_Return _ _ _ _ _ Hf).
    destruct (mapM reduce_xor segs) as [k|e].
    + by rewrite (bind_Return _ _ _ _ _ IH).
    + by rewrite (bind_Throw _ _ _ _ _ IH).
  - by rewrite (bind_Throw _ _ _ _ _ Hf).
Qed.

Lemma st_mapM_words σ this w wl cs :
  Store.objects σ !! this = Some w →
  Store.arrays σ !! w = Some (Store.Strings wl) →
  mapM (λ x, wordlist ← Store.this_wordlist this;
             wl ← Store.read_strings wordlist;
             mret (get wl x)) cs σ
  = (Return ((λ x, get wl x) <$> cs), σ).
Proof.
  intros Hthis Hw. induction cs as [|c cs IH]; [done|].
  cbn [mapM].
  assert (Ht : Store.this_wordlist this σ = (Return w, σ))
    by (unfold Store.this_wordlist; by rewrite Hthis).
  assert (Hf : (wordlist ← Store.this_wordlist this;
                wl ← Store.read_strings wordlist;
                mret (get wl c)) σ = (Return (get wl c), σ)).
  { rewrite (bind_Return _ _ _ _ _ Ht).
    by rewrite (bind_Return _ _ _ _ _ (read_strings_run _ _ _ Hw)). }
  rewrite (bind_Return _ _ _ _ _ Hf).
  by rewrite (bind_Return _ _ _ _ _ IH).
Qed.

Lemma alloc_run σ a :
  Store.alloc a σ
  = (Return (length (Store.arrays σ)),
     {| Store.arrays := Store.arrays σ ++ [a];
        Store.objects := Store.objects σ |}).
Proof. reflexivity. Qed.

Lemma alloc_lookup σ a :
  Store.arrays {| Store.arrays := Store.arrays σ ++ [a];
                  Store.objects := Store.objects σ |}
    !! length (Store.arrays σ) = Some a.
Proof. simpl. rewrite lookup_app_r by lia. by rewrite Nat.sub_diag. Qed.

(** ** [_compress] on the store computes [_compress] and only adds arrays *)

Lemma compress_unfold b target :
  _compress b target =
  if decide (length b < target) then Throw InsufficientInput
  else
    match split_loop b (seg_size_of (length b) target) target 0 []
          !! (length (split_loop b (seg_size_of (length b) target) target 0 [])
              - 1) with
    | Some last_segment =>
        mapM reduce_xor
          (<[length (split_loop b (seg_size_of (length b) target) target 0 [])
             - 1
             := last_segment
                ++ slice_from b (target * seg_size_of (length b) target)]>
             (split_loop b (seg_size_of (length b) target) target 0 []))
    | None => Throw TypeError
    end.
Proof.
  unfold _compress, segments_of, catch_leftover. cbv zeta.
  destruct (decide _); [done|]. destruct (_ !! _); [|done].
  cbn. by destruct (mapM _ _).
Qed.


Lemma st_compress σ bytes b target :
  Store.arrays σ !! bytes = Some (Store.Numbers b) →
  ∃ σ', Store.extends σ σ' ∧
    match _compress b target with
    | Return cs =>
        ∃ l, Store._compress bytes target σ = (Return l, σ') ∧
             Store.arrays σ' !! l = Some (Store.Numbers cs)
    | Throw e => Store._compress bytes target σ = (Throw e, σ')
    end.
Proof.
  intros Hb. rewrite compress_unfold. unfold Store._compress. cbv zeta.
  rewrite (bind_Return _ _ _ _ _ (read_numbers_run _ _ _ Hb)).
  destruct (decide (length b < target)) as [Hlt|Hge].
  { exists σ. split; [apply extends_refl | reflexivity]. }
  set (s := seg_size_of (length b) target).
  set (n0 := length (Store.arrays σ)).
  (* segments = [] *)
  rewrite (bind_Return _ _ _ _ _ (alloc_run σ (Store.Arrays []))).
  set (σ1 := {| Store.arrays := Store.arrays σ ++ [Store.Arrays []];
                Store.objects := Store.objects σ |}).
  assert (Hext1 : Store.extends σ σ1) by apply extends_alloc.
  (* the loop *)
  destruct (st_split_loop σ bytes b s target (s * target) 0 σ1 [] [])
    as (σ2 & locs & Hloop & Hext2 & Hseg2 & Hres2);
    [lia | done | done | apply alloc_lookup | constructor |].
  fold n0 in Hloop, Hseg2, Hres2.
  rewrite (bind_Return _ _ _ _ _ Hloop).
  rewrite (bind_Return _ _ _ _ _ (read_arrays_run _ _ _ Hseg2)).
  set (segs := split_loop b s target 0 []) in *.
  pose proof (Forall2_length _ _ _ Hres2) as Hlen.
  rewrite <- Hlen.
  destruct (locs !! (length locs - 1)) as [last|] eqn:Hlast.
  2: { destruct (segs !! (length locs - 1)) as [a|] eqn:Ha.
       { destruct (Forall2_lookup_r _ _ _ _ _ Hres2 Ha) as (? & ? & _).
         congruence. }
       exists σ2. split; [done | reflexivity]. }
  destruct (Forall2_lookup_l _ _ _ _ _ Hres2 Hlast) as (a & Ha & Hn0 & Hla).
  rewrite Ha.
  (* the last segment, with what is left over *)
  rewrite (bind_Return _ _ σ2 last σ2 eq_refl).
  rewrite (bind_Return _ _ _ _ _ (read_numbers_run _ _ _ Hla)).
  rewrite (bind_Return _ _ _ _ _
             (read_numbers_run _ _ _ (extends_lookup _ _ _ _ Hext2 Hb))).
  set (t := slice_from b (target * s)).
  rewrite (bind_Return _ _ _ _ _ (alloc_run σ2 (Store.Numbers t))).
  set (σ3 := {| Store.arrays := Store.arrays σ2 ++ [Store.Numbers t];
                Store.objects := Store.objects σ2 |}).
  rewrite (bind_Return _ _ _ _ _
             (read_numbers_run σ3 _ _ (alloc_lookup σ2 _))).
  rewrite (bind_Return _ _ _ _ _ (alloc_run σ3 (Store.Numbers (a ++ t)))).
  set (σ4 := {| Store.arrays := Store.arrays σ3 ++ [Store.Numbers (a ++ t)];
                Store.objects := Store.objects σ3 |}).
  assert (Hext3 : Store.extends σ2 σ3) by apply extends_alloc.
  assert (Hext4 : Store.extends σ3 σ4) by apply extends_alloc.
  assert (Hext24 : Store.extends σ2 σ4) by (by eapply extends_trans).
  rewrite (bind_Return _ _ _ _ _
             (read_arrays_run _ _ _ (extends_lookup _ _ _ _ Hext24 Hseg2))).
  set (joined := length (Store.arrays σ3)).
  set (locs' := <[length locs - 1 := joined]> locs).
  set (σ5 := {| Store.arrays := <[n0 := Store.Arrays locs']> (Store.arrays σ4);
                Store.objects := Store.objects σ4 |}).
  rewrite (bind_Return _ _ σ4 () σ5 eq_refl).
  pose proof (lookup_lt_Some _ _ _ Hseg2) as Hn0lt.
  pose proof (extends_length _ _ Hext24) as Hl24.
  pose proof (extends_length _ _ Hext3) as Hl23.
  assert (Hseg5 : Store.arrays σ5 !! n0 = Some (Store.Arrays locs')).
  { simpl. apply list_lookup_insert_eq. simpl in Hl24. lia. }
  rewrite (bind_Return _ _ _ _ _ (read_arrays_run _ _ _ Hseg5)).
  assert (Hext5 : Store.extends σ σ5).
  { apply extends_write; [|done].
    eapply extends_trans; [exact Hext2 | exact Hext24]. }
  assert (Hres5 : Store.resolves σ5 n0 locs' (<[length locs - 1 := a ++ t]> segs)).
  { unfold Store.resolves, locs'. apply Forall2_insert.
    - eapply Forall2_impl; [exact Hres2|]. intros l x [Hl Hx].
      split; [done|]. simpl. rewrite list_lookup_insert_ne by lia.
      exact (extends_lookup _ _ _ _ Hext24 Hx).
    - split; [unfold joined; lia|]. simpl.
      rewrite list_lookup_insert_ne by (unfold joined; lia).
      exact (alloc_lookup σ3 _). }
  (* the checksums *)
  pose proof (st_mapM_reduce _ _ _ _ Hres5) as Hmap.
  destruct (mapM reduce_xor (<[length locs - 1 := a ++ t]> segs)) as [cs|e].
  - rewrite (bind_Return _ _ _ _ _ Hmap).
    eexists. split; [|eexists; split; [reflexivity | apply alloc_lookup]].
    eapply extends_trans; [exact Hext5 | apply extends_alloc].
  - rewrite (bind_Throw _ _ _ _ _ Hmap). by exists σ5.
Qed.

(** ** [humanize] on the store computes [humanize] and only adds arrays *)

Lemma st_humanize σ this w wl D n s :
  Store.objects σ !! this = Some w →
  Store.arrays σ !! w = Some (Store.Strings wl) →
  ∃ σ',
    Store.humanize this D n s σ = (humanize {| wordlist := wl |} D n s, σ') ∧
    Store.extends σ σ'.
Proof.
  intros Hthis Hw. unfold Store.humanize. cbv zeta.
  destruct (match_pairs D) as [p|] eqn:Hp.
  2: { exists σ. split; [|apply extends_refl].
       unfold humanize, digest_bytes. cbv zeta. by rewrite Hp. }
  rewrite (humanize_bytes _ D n s ((λ x, parseInt x 16) <$> p))
    by (unfold digest_bytes; by rewrite Hp).
  cbn [wordlist].
  (* pairs and bytes *)
  rewrite (bind_Return _ _ _ _ _ (alloc_run σ (Store.Strings p))).
  set (σ1 := {| Store.arrays := Store.arrays σ ++ [Store.Strings p];
                Store.objects := Store.objects σ |}).
  rewrite (bind_Return _ _ _ _ _ (read_strings_run σ1 _ _ (alloc_lookup σ _))).
  set (b := (λ x, parseInt x 16) <$> p).
  rewrite (bind_Return _ _ _ _ _ (alloc_run σ1 (Store.Numbers b))).
  set (σ2 := {| Store.arrays := Store.arrays σ1 ++ [Store.Numbers b];
                Store.objects := Store.objects σ1 |}).
  assert (Hext2 : Store.extends σ σ2).
  { eapply extends_trans; apply extends_alloc. }
  (* compressed *)
  destruct (st_compress σ2 (length (Store.arrays σ1)) b (default 4 n)
              (alloc_lookup σ1 _)) as (σ3 & Hext3 & Hc).
  assert (Hext03 : Store.extends σ σ3) by (by eapply extends_trans).
  destruct (_compress b (default 4 n)) as [cs|e].
  2: { rewrite (bind_Throw _ _ _ _ _ Hc). exists σ3.
       split; [reflexivity | exact Hext03]. }
  destruct Hc as (l & Hc & Hl).
  rewrite (bind_Return _ _ _ _ _ Hc).
  rewrite (bind_Return _ _ _ _ _ (read_numbers_run _ _ _ Hl)).
  (* the words *)
  assert (Hthis3 : Store.objects σ3 !! this = Some w)
    by (destruct Hext03 as [-> _]; done).
  rewrite (bind_Return _ _ _ _ _
             (st_mapM_words σ3 this w wl cs Hthis3
                (extends_lookup _ _ _ _ Hext03 Hw))).
  rewrite (bind_Return _ _ _ _ _ (alloc_run σ3 _)).
  rewrite (bind_Return _ _ _ _ _ (read_words_run _ _ _ (alloc_lookup σ3 _))).
  eexists. split; [reflexivity|].
  eapply extends_trans; [exact Hext03 | apply extends_alloc].
Qed.

(** C6.  Two calls of [humanize] with the same digest, word count and
    separator on a hasher constructed from the word list [W] return the same
    outcome.  On the store: the first call only adds arrays, it writes to no
    array that was there before it and does not touch the hasher, so the
    second call finds the word list as the first did; and the outcome of
    each is the one function [humanize] of the word list, the digest, the
    word count and the separator. *)
Theorem humanize_deterministic (σ : Store.store) (W : option nat)
    (wl : list string) (D : string) (n : option nat) (s : option string)
    (this : nat) (σ1 : Store.store) :
  Store.arrays σ !! default Store.DEFAULT_WORDLIST_ref W
    = Some (Store.Strings wl) →
  Store.constructor W σ = (Return this, σ1) →
  ∃ r σ2 σ3,
    Store.humanize this D n s σ1 = (r, σ2) ∧
    Store.humanize this D n s σ2 = (r, σ3) ∧
    r = humanize {| wordlist := wl |} D n s ∧
    Store.extends σ1 σ2 ∧
    Store.extends σ2 σ3 ∧
    Store.objects σ3 !! this = Some (default Store.DEFAULT_WORDLIST_ref W) ∧
    Store.arrays σ3 !! default Store.DEFAULT_WORDLIST_ref W
      = Some (Store.Strings wl).
Proof.
  intros HW Hnew.
  set (w := default Store.DEFAULT_WORDLIST_ref W) in *.
  assert (Hσ1 : Store.objects σ1 !! this = Some w ∧
                Store.arrays σ1 !! w = Some (Store.Strings wl)).
  { unfold Store.constructor in Hnew. cbv zeta in Hnew. fold w in Hnew.
    rewrite (bind_Return _ _ _ _ _ (read_strings_run _ _ _ HW)) in Hnew.
    destruct (decide (length wl ≠ 256)); [discriminate|].
    injection Hnew as <- <-. simpl. split; [|done].
    rewrite lookup_app_r by lia. by rewrite Nat.sub_diag. }
  destruct Hσ1 as [Hthis1 HW1].
  destruct (st_humanize σ1 this w wl D n s Hthis1 HW1) as (σ2 & H1 & Hext12).
  assert (Hthis2 : Store.objects σ2 !! this = Some w)
    by (destruct Hext12 as [-> _]; done).
  pose proof (extends_lookup _ _ _ _ Hext12 HW1) as HW2.
  destruct (st_humanize σ2 this w wl D n s Hthis2 HW2) as (σ3 & H2 & Hext23).
  exists (humanize {| wordlist := wl |} D n s), σ2, σ3.
  split; [exact H1|]. split; [exact H2|]. split; [reflexivity|].
  split; [exact Hext12|]. split; [exact Hext23|]. split.
  - destruct Hext23 as [-> _]. exact Hthis2.
  - exact (extends_lookup _ _ _ _ Hext23 HW2).
Qed.

Lemma humanize_deterministic_witness :
  Store.arrays Store.initial !! default Store.DEFAULT_WORDLIST_ref None
    = Some (Store.Strings DEFAULT_WORDLIST) ∧
  Store.constructor None Store.initial
  = (Return 0, {| Store.arrays := [Store.Strings DEFAULT_WORDLIST];
                  Store.objects := [0] |}) ∧
  ∃ r σ2 σ3,
    Store.humanize 0 "1A2B3C4D" None None
      {| Store.arrays := [Store.Strings DEFAULT_WORDLIST];
         Store.objects := [0] |} = (r, σ2) ∧
    Store.humanize 0 "1A2B3C4D" None None σ2 = (r, σ3) ∧
    r = Return "bravo-comet-eighteen-fourteen".
Proof.
  assert (H1 : Store.arrays Store.initial
                 !! default Store.DEFAULT_WORDLIST_ref None
               = Some (Store.Strings DEFAULT_WORDLIST)) by reflexivity.
  assert (H2 : Store.constructor None Store.initial
               = (Return 0, {| Store.arrays := [Store.Strings DEFAULT_WORDLIST];
                               Store.objects := [0] |})) by reflexivity.
  split; [exact H1|]. split; [exact H2|].
  destruct (humanize_deterministic _ None _ "1A2B3C4D" None None _ _ H1 H2)
    as (r & σ2 & σ3 & Hr1 & Hr2 & Hr & _).
  exists r, σ2, σ3. split; [exact Hr1|]. split; [exact Hr2|].
  etransitivity; [exact Hr|]. vm_compute. reflexivity.
Defined.
